(** * Reflex: a positional virtual-tree reconciler (src/reflex.js)

    A shallow embedding of the Reflex engine and the properties its
    specification states about it.

    - JavaScript values that reach the engine as property values are the
      inductive [value]; a props object is an association list in own-key
      order ([object]).
    - A virtual node is a string or a [{type, props, children}] record
      ([vnode]); [undefined] in a node position is [None].
    - The live tree of the document collaborator is the inductive [live].
      Statements of the source that run against a live node are [action]s:
      functions from the node reference they are given to an [outcome] that
      carries the node after the statement, the collaborator calls issued and
      the completion (normal, or an exception that leaves the mutations done
      so far in place).
    - A second embedding, in [Module Heap], keeps the virtual nodes in an
      object store so that writes to them can be spoken about. *)

From Stdlib Require Import ZArith Ascii String List Bool Lia.
From stdpp Require Import base decidable option list strings gmap.

Local Open Scope string_scope.
Local Open Scope list_scope.

(** ** JavaScript values *)

(** Numbers are the integers and NaN; functions and other objects are
    references compared by identity. *)
Inductive value : Type :=
  | VUndefined
  | VNull
  | VBool (b : bool)
  | VNum (n : Z)
  | VNaN
  | VStr (s : string)
  | VFun (id : nat)
  | VObj (id : nat).

#[global] Instance value_eq_dec : EqDecision value.
Proof. solve_decision. Defined.

(** ToBoolean. *)
Definition truthy (v : value) : bool :=
  match v with
  | VUndefined | VNull | VNaN => false
  | VBool b => b
  | VNum n => negb (n =? 0)%Z
  | VStr s => negb (bool_decide (s = ""))
  | VFun _ | VObj _ => true
  end.

(** [a === b]. *)
Definition strict_eq (a b : value) : bool :=
  match a, b with
  | VNaN, _ | _, VNaN => false
  | _, _ => bool_decide (a = b)
  end.

(** [a !== b]. *)
Definition strict_neq (a b : value) : bool := negb (strict_eq a b).

(** ** Plain objects used as property maps *)

(** Own properties in [Object.keys] order (insertion order; array-index
    keys, which JavaScript lists first, are not attribute names).  Keys of a
    JavaScript object are unique: [wf_object]. *)
Abbreviation object := (list (string * value)).

Definition Object_keys (o : object) : list string := o.*1.

Definition wf_object (o : object) : Prop := NoDup (Object_keys o).

(** [o[k]]: the own property, [undefined] when there is none. *)
Fixpoint get (o : object) (k : string) : value :=
  match o with
  | [] => VUndefined
  | (k', v) :: o' => if decide (k' = k) then v else get o' k
  end.

(** [o[k] = v]: an existing key keeps its place, a new one goes last. *)
Fixpoint put (o : object) (k : string) (v : value) : object :=
  match o with
  | [] => [(k, v)]
  | (k', v') :: o' =>
      if decide (k' = k) then (k', v) :: o' else (k', v') :: put o' k v
  end.




(** [Object.assign(target, ...sources)]: writes into [target]. *)
Definition Object_assign (target : object) (sources : list object) : object :=
  fold_left (fun t s => fold_left (fun t kv => put t kv.1 kv.2) s t)
            sources target.

(** ** Virtual nodes *)

#[local] Unset Elimination Schemes.

Inductive vnode : Type :=
  | VText (s : string)
  | VElem (type : string) (props : object) (children : list vnode).

#[local] Set Elimination Schemes.

(** Induction with the hypothesis on every child. *)
Fixpoint vnode_ind (P : vnode -> Prop)
    (Htext : forall s, P (VText s))
    (Helem : forall type props children,
        Forall P children -> P (VElem type props children))
    (n : vnode) {struct n} : P n :=
  match n with
  | VText s => Htext s
  | VElem type props children =>
      Helem type props children
        ((fix go (l : list vnode) : Forall P l :=
            match l with
            | [] => @List.Forall_nil _ P
            | c :: l' => @List.Forall_cons _ P c l' (vnode_ind P Htext Helem c) (go l')
            end) children)
  end.

(** [h(type, props, ...children)]; [props || {}]. *)
Definition h (type : string) (props : option object) (children : list vnode)
  : vnode :=
  VElem type (default [] props) children.

(** A node position holds a virtual node or [undefined]. *)
Abbreviation jsnode := (option vnode).

(** ToBoolean of a node position: [undefined] and [""] are falsy. *)
Definition node_truthy (n : jsnode) : bool :=
  match n with
  | None => false
  | Some (VText s) => negb (bool_decide (s = ""))
  | Some (VElem _ _ _) => true
  end.

Inductive jstype : Type := TyString | TyObject.

#[global] Instance jstype_eq_dec : EqDecision jstype.
Proof. solve_decision. Defined.

(** [typeof n]. *)
Definition typeof (n : vnode) : jstype :=
  match n with
  | VText _ => TyString
  | VElem _ _ _ => TyObject
  end.

(** [n.type]: a string has no such property. *)
Definition node_type (n : vnode) : value :=
  match n with
  | VText _ => VUndefined
  | VElem ty _ _ => VStr ty
  end.

(** A node as an operand of [!==].  An element is an object, never equal to
    a string; the identity of two objects is not consulted, [changed]
    compares nodes only when the left one is a string. *)
Definition node_value (n : vnode) : value :=
  match n with
  | VText s => VStr s
  | VElem _ _ _ => VObj 0
  end.

(** ** Property classifier *)

(** [/^on/.test(name)]. *)
Definition isEventProp (name : string) : bool := String.prefix "on" name.

Definition isCustomProp (name : string) : bool :=
  isEventProp name || bool_decide (name = "forceUpdate").

(** Lower case of the letters A to Z; names are taken to be ASCII. *)
Definition lower_ascii (c : ascii) : ascii :=
  let n := nat_of_ascii c in
  if (65 <=? n)%nat && (n <=? 90)%nat then ascii_of_nat (n + 32) else c.

Fixpoint toLowerCase (s : string) : string :=
  match s with
  | EmptyString => EmptyString
  | String c s' => String (lower_ascii c) (toLowerCase s')
  end.

(** [s.slice(k)]. *)
Definition slice (k : nat) (s : string) : string :=
  String.substring k (String.length s - k) s.

(** [name.slice(2).toLowerCase()]. *)
Definition extractEventName (name : string) : string :=
  toLowerCase (slice 2 name).

(** ** The live tree of the document collaborator *)

(** A text node holds its data; an element holds its tag, its attribute map,
    its event listeners (event name and handler, in subscription order) and
    its children.  The collaborator is taken to accept every tag and
    attribute name and to store the value it is given. *)
#[local] Unset Elimination Schemes.

Inductive live : Type :=
  | LText (data : string)
  | LElem (tagName : string) (attributes : object)
          (listeners : list (string * value)) (childNodes : list live).

#[local] Set Elimination Schemes.

Fixpoint live_ind (P : live -> Prop)
    (Htext : forall d, P (LText d))
    (Helem : forall tg at_ ls cs, Forall P cs -> P (LElem tg at_ ls cs))
    (n : live) {struct n} : P n :=
  match n with
  | LText d => Htext d
  | LElem tg at_ ls cs =>
      Helem tg at_ ls cs
        ((fix go (l : list live) : Forall P l :=
            match l with
            | [] => @List.Forall_nil _ P
            | c :: l' => @List.Forall_cons _ P c l' (live_ind P Htext Helem c) (go l')
            end) cs)
  end.

(** [n.childNodes]; a text node has none. *)
Definition childNodes_of (n : live) : list live :=
  match n with
  | LText _ => []
  | LElem _ _ _ cs => cs
  end.

Definition with_childNodes (n : live) (cs : list live) : live :=
  match n with
  | LText d => LText d
  | LElem tg at_ ls _ => LElem tg at_ ls cs
  end.

Definition listeners_of (n : live) : list (string * value) :=
  match n with
  | LText _ => []
  | LElem _ _ ls _ => ls
  end.

Definition attributes_of (n : live) : object :=
  match n with
  | LText _ => []
  | LElem _ at_ _ _ => at_
  end.

(** Removal of a key from an attribute map. *)
Definition remove_key (o : object) (k : string) : object :=
  filter (fun kv => kv.1 <> k) o.

(** ** Outcomes and actions *)

Inductive error : Type :=
  | ReferenceError (ident : string)
  | TypeError
  | HierarchyRequestError.

Inductive completion : Type :=
  | Normal
  | Throw (e : error).

(** What a run issued to the collaborator, in order, and which calls of
    [updateProp] it made (a ghost event, used to count invocations). *)
Inductive event : Type :=
  | EvSetAttribute (name : string) (v : value)
  | EvRemoveAttribute (name : string)
  | EvAddEventListener (type : string) (handler : value)
  | EvAppendChild (child : live)
  | EvRemoveChild (child : live)
  | EvReplaceChild (newChild oldChild : live)
  | EvCall_updateProp (name : string) (newValue oldValue : value).

Record outcome : Type := Outcome {
  final : option live;
  log : list event;
  res : completion
}.

(** A statement run against a node reference ([None] is [undefined]). *)
Definition action : Type := option live -> outcome.

Definition skip : action := fun t => Outcome t [] Normal.

Definition throw (e : error) : action := fun t => Outcome t [] (Throw e).

(** [a; b]: [b] runs only when [a] completes normally. *)
Definition andThen (a b : action) : action := fun t =>
  let o := a t in
  match res o with
  | Normal => let o' := b (final o) in Outcome (final o') (log o ++ log o') (res o')
  | Throw _ => o
  end.

Notation "a ;;; b" := (andThen a b) (at level 62, right associativity).

(** [xs.forEach(f)]. *)
Fixpoint forEach {A : Type} (xs : list A) (f : A -> action) : action :=
  match xs with
  | [] => skip
  | x :: xs' => f x ;;; forEach xs' f
  end.

(** ** Collaborator methods *)

Definition setAttribute (name : string) (v : value) : action := fun target =>
  match target with
  | Some (LElem tg at_ ls cs) =>
      Outcome (Some (LElem tg (put at_ name v) ls cs)) [EvSetAttribute name v] Normal
  | _ => throw TypeError target
  end.

Definition removeAttribute (name : string) : action := fun target =>
  match target with
  | Some (LElem tg at_ ls cs) =>
      Outcome (Some (LElem tg (remove_key at_ name) ls cs)) [EvRemoveAttribute name] Normal
  | _ => throw TypeError target
  end.

(** Listeners of text nodes are not tracked: the engine subscribes on
    elements only. *)
Definition addEventListener (type : string) (handler : value) : action :=
  fun target =>
  match target with
  | Some (LElem tg at_ ls cs) =>
      Outcome (Some (LElem tg at_ (ls ++ [(type, handler)]) cs))
              [EvAddEventListener type handler] Normal
  | Some (LText d) => Outcome target [EvAddEventListener type handler] Normal
  | None => throw TypeError target
  end.

(** [parent.appendChild(child)] with a freshly made [child]. *)
Definition appendChild (child : option live) : action := fun parent =>
  match parent, child with
  | None, _ => throw TypeError parent
  | Some _, None => throw TypeError parent
  | Some (LText _), Some _ => throw HierarchyRequestError parent
  | Some (LElem tg at_ ls cs), Some c =>
      Outcome (Some (LElem tg at_ ls (cs ++ [c]))) [EvAppendChild c] Normal
  end.

(** [parent.removeChild(parent.childNodes[index])]. *)
Definition removeChild_at (index : nat) : action := fun parent =>
  match parent with
  | None => throw TypeError parent
  | Some p =>
      match childNodes_of p !! index with
      | None => throw TypeError parent
      | Some c =>
          Outcome (Some (with_childNodes p (delete index (childNodes_of p))))
                  [EvRemoveChild c] Normal
      end
  end.

(** [parent.replaceChild(newChild, parent.childNodes[index])]. *)
Definition replaceChild_at (newChild : option live) (index : nat) : action :=
  fun parent =>
  match parent, newChild with
  | None, _ => throw TypeError parent
  | Some _, None => throw TypeError parent
  | Some p, Some c' =>
      match childNodes_of p !! index with
      | None => throw TypeError parent
      | Some c =>
          Outcome (Some (with_childNodes p (<[index := c']> (childNodes_of p))))
                  [EvReplaceChild c' c] Normal
      end
  end.

(** [f(...)] called as a method of the reference: reading the method of
    [undefined] throws before any argument is evaluated. *)
Definition on_object (a : action) : action := fun t =>
  match t with
  | None => throw TypeError t
  | Some _ => a t
  end.

(** Runs [a] against [parent.childNodes[index]]; what [a] did to that child
    is seen through the parent. *)
Definition in_child (index : nat) (a : action) : action := fun parent =>
  match parent with
  | None => throw TypeError parent
  | Some p =>
      let o := a (childNodes_of p !! index) in
      Outcome
        (Some (match final o with
               | Some c' => with_childNodes p (<[index := c']> (childNodes_of p))
               | None => p
               end))
        (log o) (res o)
  end.

(** ** Identifier resolution *)

Abbreviation scope := (list (string * value)) (only parsing).

Fixpoint resolve (sc : scope) (ident : string) : option value :=
  match sc with
  | [] => None
  | (x, v) :: sc' => if decide (x = ident) then Some v else resolve sc' ident
  end.

(** The bindings of the module closure, of the script and of the host that
    the source refers to. *)
Definition module_scope : scope :=
  [("h", VFun 1); ("isEventProp", VFun 2); ("isCustomProp", VFun 3);
   ("extractEventName", VFun 4); ("setProp", VFun 5); ("removeProp", VFun 6);
   ("setProps", VFun 7); ("updateProp", VFun 8); ("updateProps", VFun 9);
   ("addEventListeners", VFun 10); ("createElement", VFun 11);
   ("changed", VFun 12); ("update", VFun 13)].

Definition script_scope : scope := [("Reflex", VObj 1); ("el", VObj 2)].

(** The host is taken to define no global of the name [newVal]. *)
Definition host_scope : scope := [("document", VObj 3); ("console", VObj 4)].

(** ** Property operations (src/reflex.js, lines 50-133) *)

Definition setProp (name : string) (v : value) : action :=
  if isCustomProp name then skip
  else if bool_decide (name = "className") then setAttribute "class" v
  else setAttribute name v.

Definition removeProp (name : string) (v : value) : action :=
  if isCustomProp name then skip
  else if bool_decide (name = "className") then removeAttribute "class"
  else removeAttribute name.

Definition setProps (props : object) : action :=
  forEach (Object_keys props) (fun name => setProp name (get props name)).

(** What the body of [updateProp] can name: its parameters, then the
    enclosing scopes. *)
Definition updateProp_scope (target : option live) (name : string)
    (newValue oldValue : value) : scope :=
  [("target", match target with Some _ => VObj 0 | None => VUndefined end);
   ("name", VStr name);
   ("newValue", newValue); ("oldValue", oldValue)]
  ++ module_scope ++ script_scope ++ host_scope.

(** The condition of the first branch reads the identifier [newVal]. *)
Definition updateProp (name : string) (newValue oldValue : value) : action :=
  fun target =>
  ((fun t => Outcome t [EvCall_updateProp name newValue oldValue] Normal) ;;;
   match resolve (updateProp_scope target name newValue oldValue) "newVal" with
   | None => throw (ReferenceError "newVal")
   | Some newVal =>
       if negb (truthy newVal) then removeProp name oldValue
       else if negb (truthy oldValue) || strict_neq newValue oldValue
            then setProp name newValue
       else skip
   end) target.

(** [oldProps = {}] when the argument is [undefined]. *)
Definition updateProps (newProps : object) (oldProps : option object) : action :=
  let oldProps := default [] oldProps in
  let props := Object_assign [] [newProps; oldProps] in
  forEach (Object_keys props)
          (fun name => updateProp name (get newProps name) (get oldProps name)).

Definition addEventListeners (props : object) : action :=
  forEach (Object_keys props)
          (fun name =>
             if isEventProp name
             then addEventListener (extractEventName name) (get props name)
             else skip).

(** ** Materialization (lines 142-152) *)

(** [nodes.map(createElement)]: the nodes are made left to right, up to the
    first exception. *)
Fixpoint collect (os : list outcome)
  : list (option live) * list event * completion :=
  match os with
  | [] => ([], [], Normal)
  | o :: os' =>
      match res o with
      | Normal =>
          let '(made, l, r) := collect os' in (final o :: made, log o ++ l, r)
      | Throw e => ([], log o, Throw e)
      end
  end.

(** [made.forEach(el.appendChild.bind(el))] after the children were made. *)
Definition appendAll (os : list outcome) : action := fun el =>
  let '(made, l, r) := collect os in
  match r with
  | Normal =>
      let o := forEach made appendChild el in
      Outcome (final o) (l ++ log o) (res o)
  | Throw e => Outcome el l (Throw e)
  end.

Fixpoint createElement_node (node : vnode) : outcome :=
  match node with
  | VText s => Outcome (Some (LText s)) [] Normal
  | VElem type props children =>
      (setProps props ;;; addEventListeners props ;;;
       appendAll (map createElement_node children))
        (Some (LElem type [] [] []))
  end.

(** [createElement(node)]; reading [undefined.type] throws. *)
Definition createElement (node : jsnode) : outcome :=
  match node with
  | Some n => createElement_node n
  | None => Outcome None [] (Throw TypeError)
  end.

(** ** Change detection (lines 162-168) *)

Definition changed (node1 node2 : vnode) : bool :=
  negb (bool_decide (typeof node1 = typeof node2))
  || (bool_decide (typeof node1 = TyString)
      && strict_neq (node_value node1) (node_value node2))
  || strict_neq (node_type node1) (node_type node2).

(** ** The tree reconciler (lines 178-194) *)

(** The argument [f(createElement(newNode), ...)] is evaluated, then [k]
    runs with the node made. *)
Definition withCreated (oc : outcome) (k : option live -> action) : action :=
  fun t =>
  match res oc with
  | Normal =>
      let o := k (final oc) t in Outcome (final o) (log oc ++ log o) (res o)
  | Throw e => Outcome t (log oc) (Throw e)
  end.

(** The body of [update]; [kid newChildren oldChildren i] stands for the
    recursive call of the loop,
    [update(parent.childNodes[index], newNode.children[i], oldNode.children[i], i)]
    without its first argument. *)
Definition update_step (kid : list vnode -> list vnode -> nat -> action)
    (newNode oldNode : jsnode) (index : nat) : action :=
  if negb (node_truthy oldNode) then
    on_object (withCreated (createElement newNode) appendChild)
  else if negb (node_truthy newNode) then
    removeChild_at index
  else
    match newNode, oldNode with
    | Some new, Some old =>
        if changed new old then
          on_object (withCreated (createElement newNode)
                                 (fun c => replaceChild_at c index))
        else if truthy (node_type new) then
          match new, old with
          | VElem _ newProps newChildren, VElem _ oldProps oldChildren =>
              in_child index (updateProps newProps (Some oldProps)) ;;;
              forEach (seq 0 (max (length newChildren) (length oldChildren)))
                      (fun i => in_child index (kid newChildren oldChildren i))
          | _, _ => throw TypeError (* not reached: unchanged, with a type *)
          end
        else skip
    | _, _ => skip (* not reached: both are truthy *)
    end.

(** [update] with [newNode] undefined: no branch recurses. *)
Definition update_undefined (oldNode : jsnode) (index : nat) : action :=
  update_step (fun _ _ _ => skip) None oldNode index.

(** [update] with [newNode] present, by recursion on it: the recursive call
    for position [i] is the one of the [i]-th new child, or
    [update_undefined] past the new children. *)
Fixpoint update_node (newNode : vnode) : jsnode -> nat -> action :=
  fun oldNode index =>
  update_step
    (fun _ oldChildren i =>
       match (match newNode with
              | VText _ => []
              | VElem _ _ newChildren => map update_node newChildren
              end) !! i with
       | Some self => self (oldChildren !! i) i
       | None => update_undefined (oldChildren !! i) i
       end)
    (Some newNode) oldNode index.

(** [update(parent, newNode, oldNode, index)] as an action on [parent]. *)
Definition update (newNode oldNode : jsnode) (index : nat) : action :=
  match newNode with
  | Some n => update_node n oldNode index
  | None => update_undefined oldNode index
  end.

(** The exported entry point: [index = 0] when the argument is omitted. *)
Definition Reflex_update (newNode oldNode : jsnode) (index : option nat)
  : action :=
  update newNode oldNode (default 0 index).

(** The script at the end of the source (lines 203-206), run against
    [document.body]. *)
Definition el : vnode := h "h2" (Some []) [VText "Hello World!"].

Definition script : action := Reflex_update (Some el) None None.

(** ** Notions used in the statements *)

Definition is_string (n : vnode) : bool :=
  match n with
  | VText _ => true
  | VElem _ _ _ => false
  end.

(** The change relation in the words of the specification: the shapes
    differ (exactly one of the two is a string), or both are strings with
    different contents, or both are elements with different tag names. *)
Inductive changed_spec : vnode -> vnode -> Prop :=
  | changed_shape n o :
      is_string n <> is_string o -> changed_spec n o
  | changed_text s1 s2 :
      s1 <> s2 -> changed_spec (VText s1) (VText s2)
  | changed_tag t1 p1 c1 t2 p2 c2 :
      t1 <> t2 -> changed_spec (VElem t1 p1 c1) (VElem t2 p2 c2).

(** Commands that change the live tree; the ghost call event is not one. *)
Definition is_mutation (e : event) : bool :=
  match e with
  | EvCall_updateProp _ _ _ => false
  | _ => true
  end.

(** Key uniqueness in every props object of a tree. *)
Fixpoint wf_vnode (n : vnode) : bool :=
  match n with
  | VText _ => true
  | VElem _ props children =>
      bool_decide (wf_object props) && forallb wf_vnode children
  end.

(** What the two key walks of [createElement] leave on a fresh element. *)
Definition set_attrs (props : object) (keys : list string) (at_ : object)
  : object :=
  fold_left (fun at_ k =>
               if isCustomProp k then at_
               else if bool_decide (k = "className")
                    then put at_ "class" (get props k)
               else put at_ k (get props k))
            keys at_.

Definition add_listeners (props : object) (keys : list string)
    (ls : list (string * value)) : list (string * value) :=
  fold_left (fun ls k =>
               if isEventProp k then ls ++ [(extractEventName k, get props k)]
               else ls)
            keys ls.

Fixpoint createElement_result (node : vnode) : live :=
  match node with
  | VText s => LText s
  | VElem type props children =>
      LElem type (set_attrs props (Object_keys props) [])
            (add_listeners props (Object_keys props) [])
            (map createElement_result children)
  end.

(** The materializer in the words of the specification (section 4.3): a
    string gives a text node; an element gets every non-framework property
    as an attribute ([className] as [class]), a subscription of the
    property's value under the derived event name for every event property,
    and the materialized children in order. *)
Definition attribute_name (name : string) : string :=
  if bool_decide (name = "className") then "class" else name.

Definition attributes_spec (props : object) : object :=
  fold_left (fun at_ kv => put at_ (attribute_name kv.1) kv.2)
            (filter (fun kv => isCustomProp kv.1 = false) props) [].

Definition subscriptions_spec (props : object) : list (string * value) :=
  map (fun kv => (extractEventName kv.1, kv.2))
      (filter (fun kv => isEventProp kv.1 = true) props).

Fixpoint materialize_spec (v : vnode) : live :=
  match v with
  | VText s => LText s
  | VElem type props children =>
      LElem type (attributes_spec props) (subscriptions_spec props)
            (map materialize_spec children)
  end.

(** The entry point removes or replaces at its position: the old node is
    present and the new one is absent, or both are present and changed. *)
Definition removes_or_replaces (newNode oldNode : jsnode) : bool :=
  node_truthy oldNode
  && (negb (node_truthy newNode)
      || match newNode, oldNode with
         | Some new, Some old => changed new old
         | _, _ => false
         end).

(** What then stands in the place of the live child, and the command that
    put it there. *)
Definition put_in_place (newNode : jsnode) : list live :=
  match newNode with
  | Some new => if node_truthy newNode then [createElement_result new] else []
  | None => []
  end.

Definition command_on (newNode : jsnode) (c : live) : event :=
  match newNode with
  | Some new =>
      if node_truthy newNode then EvReplaceChild (createElement_result new) c
      else EvRemoveChild c
  | None => EvRemoveChild c
  end.

(** No text node of the tree is the empty string. *)
Fixpoint no_empty_text (n : vnode) : bool :=
  match n with
  | VText s => negb (bool_decide (s = ""))
  | VElem _ _ children => forallb no_empty_text children
  end.

(** An action that leaves the node as it found it and issues no command
    that changes the live tree, however it completes. *)
Definition quiet (a : action) : Prop :=
  forall t, final (a t) = t
            /\ Forall (fun e => is_mutation e = false) (log (a t)).

(** [subtree n root]: [n] is [root] or one of its descendants. *)
Inductive subtree : vnode -> vnode -> Prop :=
  | subtree_here n : subtree n n
  | subtree_below n ty ps cs c :
      c ∈ cs -> subtree n c -> subtree n (VElem ty ps cs).

(** * The engine over an object store

    The same source, with virtual nodes, props objects and children arrays
    as objects of a store, so that a write to one of them has a place to
    happen.  A node position holds any [value]: a string is a text node,
    [VObj l] refers to the object at [l].  Recursion on a store is not
    structural (a store may hold a cycle), the fuel bounds the depth of
    calls and [None] says it ran out. *)
Module Heap.

Inductive hobj : Type :=
  | HObject (fields : list (string * value))
  | HArray (elems : list value).

Abbreviation store := (gmap nat hobj).

(** A new object at a location not in use. *)
Definition alloc (st : store) (o : hobj) : store * value :=
  let l := fresh (dom st) in (<[l := o]> st, VObj l).

(** [typeof v]. *)
Definition typeof (v : value) : string :=
  match v with
  | VUndefined => "undefined"
  | VNull | VObj _ => "object"
  | VBool _ => "boolean"
  | VNum _ | VNaN => "number"
  | VStr _ => "string"
  | VFun _ => "function"
  end.

(** [v.f] and [v[f]]; [None] is the TypeError of reading a property of
    [undefined] or [null].  The engine reads [type], [props], [children]
    and props keys: a primitive or an array has none of them. *)
Definition member (st : store) (v : value) (f : string) : option value :=
  match v with
  | VUndefined | VNull => None
  | VObj l =>
      match st !! l with
      | Some (HObject fs) => Some (get fs f)
      | _ => Some VUndefined
      end
  | _ => Some VUndefined
  end.

(** The own properties of a plain object. *)
Definition own_fields (st : store) (v : value)
  : option (list (string * value)) :=
  match v with
  | VObj l =>
      match st !! l with
      | Some (HObject fs) => Some fs
      | _ => None
      end
  | _ => None
  end.

(** The elements of an array. *)
Definition elems_of (st : store) (v : value) : option (list value) :=
  match v with
  | VObj l =>
      match st !! l with
      | Some (HArray es) => Some es
      | _ => None
      end
  | _ => None
  end.

(** [Object.assign(target, ...sources)]: the one write of the engine to
    an object of the store.  A source that is not a plain object gives
    nothing. *)
Definition assign (st : store) (target : value) (sources : list value)
  : store :=
  match target with
  | VObj l =>
      match st !! l with
      | Some (HObject fs) =>
          <[l := HObject
                   (Object_assign fs
                      (map (fun s => default [] (own_fields st s)) sources))]> st
      | _ => st
      end
  | _ => st
  end.

(** [h(type, props, ...children)]: the rest parameter is a new array,
    [props || {}] a new object when [props] is falsy. *)
Definition h (type : value) (props : value) (children : list value)
    (st : store) : store * value :=
  let '(st1, arr) := alloc st (HArray children) in
  let '(st2, ps) :=
    if truthy props then (st1, props) else alloc st1 (HObject []) in
  alloc st2 (HObject [("type", type); ("props", ps); ("children", arr)]).

(** Statements that also see the store. *)
Definition hact : Type := store -> option live -> option (store * outcome).

Definition hlift (a : action) : hact := fun st t => Some (st, a t).

Definition hseq (a b : hact) : hact := fun st t =>
  match a st t with
  | None => None
  | Some (st1, o) =>
      match res o with
      | Normal =>
          match b st1 (final o) with
          | None => None
          | Some (st2, o') =>
              Some (st2, Outcome (final o') (log o ++ log o') (res o'))
          end
      | Throw _ => Some (st1, o)
      end
  end.

Fixpoint hforEach {A : Type} (xs : list A) (f : A -> hact) : hact :=
  match xs with
  | [] => hlift skip
  | x :: xs' => hseq (f x) (hforEach xs' f)
  end.

Definition h_in_child (index : nat) (a : hact) : hact := fun st parent =>
  match parent with
  | None => Some (st, throw TypeError parent)
  | Some p =>
      match a st (childNodes_of p !! index) with
      | None => None
      | Some (st1, o) =>
          Some (st1,
                Outcome
                  (Some (match final o with
                         | Some c' =>
                             with_childNodes p (<[index := c']> (childNodes_of p))
                         | None => p
                         end))
                  (log o) (res o))
      end
  end.

(** [setProps(target, props)] and [addEventListeners(target, props)] read
    the keys of [props]. *)
Definition setProps (st : store) (props : value) : action :=
  match own_fields st props with
  | Some fs => forEach (Object_keys fs) (fun name => setProp name (get fs name))
  | None => throw TypeError
  end.

Definition addEventListeners (st : store) (props : value) : action :=
  match own_fields st props with
  | Some fs =>
      forEach (Object_keys fs)
              (fun name =>
                 if isEventProp name
                 then addEventListener (extractEventName name) (get fs name)
                 else skip)
  | None => throw TypeError
  end.

(** [updateProps(target, newProps, oldProps = {})]: the default and the
    merged [props] are new objects; the merge is written into the latter. *)
Definition updateProps (newProps oldProps : value) : hact := fun st target =>
  let '(st0, oldProps) :=
    match oldProps with
    | VUndefined => alloc st (HObject [])
    | _ => (st, oldProps)
    end in
  let '(st1, props) := alloc st0 (HObject []) in
  let st2 := assign st1 props [newProps; oldProps] in
  match own_fields st2 props with
  | Some fs =>
      Some (st2,
            forEach (Object_keys fs)
                    (fun name =>
                       match member st2 newProps name, member st2 oldProps name with
                       | Some newValue, Some oldValue =>
                           updateProp name newValue oldValue
                       | _, _ => throw TypeError
                       end)
                    target)
  | None => Some (st2, throw TypeError target)
  end.

(** [createElement(node)]; a tag that is not a string is left to the
    collaborator (TypeError here). *)
Fixpoint createElement (fuel : nat) (st : store) (node : value)
  : option outcome :=
  match fuel with
  | 0 => None
  | S fuel' =>
      match node with
      | VStr s => Some (Outcome (Some (LText s)) [] Normal)
      | _ =>
          match member st node "type", member st node "props",
                member st node "children" with
          | Some (VStr tag), Some props, Some children =>
              match elems_of st children with
              | Some es =>
                  made ← mapM (createElement fuel' st) es;
                  Some ((Heap.setProps st props ;;;
                         Heap.addEventListeners st props ;;;
                         appendAll made) (Some (LElem tag [] [] [])))
              | None =>
                  Some ((Heap.setProps st props ;;;
                         Heap.addEventListeners st props ;;;
                         throw TypeError) (Some (LElem tag [] [] [])))
              end
          | _, _, _ => Some (Outcome None [] (Throw TypeError))
          end
      end
  end.

(** [changed(node1, node2)]; [None] is a TypeError. *)
Definition changed (st : store) (node1 node2 : value) : option bool :=
  if negb (bool_decide (typeof node1 = typeof node2)) then Some true
  else if bool_decide (typeof node1 = "string") && strict_neq node1 node2
  then Some true
  else
    match member st node1 "type", member st node2 "type" with
    | Some t1, Some t2 => Some (strict_neq t1 t2)
    | _, _ => None
    end.

(** [update(parent, newNode, oldNode, index)]. *)
Fixpoint update (fuel : nat) (newNode oldNode : value) (index : nat)
  : hact :=
  fun st parent =>
  match fuel with
  | 0 => None
  | S fuel' =>
      if negb (truthy oldNode) then
        oc ← createElement fuel st newNode;
        Some (st, on_object (withCreated oc appendChild) parent)
      else if negb (truthy newNode) then
        Some (st, removeChild_at index parent)
      else
        match changed st newNode oldNode with
        | None => Some (st, throw TypeError parent)
        | Some true =>
            oc ← createElement fuel st newNode;
            Some (st, on_object
                        (withCreated oc (fun c => replaceChild_at c index))
                        parent)
        | Some false =>
            match member st newNode "type" with
            | None => Some (st, throw TypeError parent)
            | Some ty =>
                if truthy ty then
                  match member st newNode "props", member st oldNode "props",
                        member st newNode "children",
                        member st oldNode "children" with
                  | Some newProps, Some oldProps,
                    Some newChildren, Some oldChildren =>
                      hseq (h_in_child index (Heap.updateProps newProps oldProps))
                           (fun st1 t =>
                              match elems_of st1 newChildren,
                                    elems_of st1 oldChildren with
                              | Some news, Some olds =>
                                  hforEach
                                    (seq 0 (max (length news) (length olds)))
                                    (fun i =>
                                       h_in_child index
                                         (update fuel'
                                                 (default VUndefined (news !! i))
                                                 (default VUndefined (olds !! i))
                                                 i))
                                    st1 t
                              | _, _ => Some (st1, throw TypeError t)
                              end)
                           st parent
                  | _, _, _, _ => Some (st, throw TypeError parent)
                  end
                else Some (st, skip parent)
            end
        end
  end.

(** ** Virtual trees in a store *)

(** Pairwise relation of two lists of the same length. *)
Section all2.
Context {A B : Type} (R : A -> B -> Prop).

Fixpoint all2 (xs : list A) (ys : list B) {struct xs} : Prop :=
  match xs, ys with
  | [], [] => True
  | x :: xs', y :: ys' => R x y /\ all2 xs' ys'
  | _, _ => False
  end.

End all2.

(** [v] denotes the tree [T] in [st]. *)
Fixpoint represents (st : store) (v : value) (T : vnode) {struct T} : Prop :=
  match T with
  | VText s => v = VStr s
  | VElem ty ps cs =>
      exists l lp lc fs vs,
        v = VObj l
        /\ st !! l = Some (HObject fs)
        /\ get fs "type" = VStr ty
        /\ get fs "props" = VObj lp
        /\ get fs "children" = VObj lc
        /\ st !! lp = Some (HObject ps)
        /\ st !! lc = Some (HArray vs)
        /\ all2 (fun c v' => represents st v' c) cs vs
  end.

Definition represents_opt (st : store) (v : value) (n : jsnode) : Prop :=
  match n with
  | None => v = VUndefined
  | Some T => represents st v T
  end.

(** Depth of calls [update] makes on a node position. *)
Fixpoint height (T : vnode) : nat :=
  match T with
  | VText _ => 0
  | VElem _ _ cs => S (foldr (fun c m => max (height c) m) 0 cs)
  end.

Definition height_opt (n : jsnode) : nat :=
  match n with
  | None => 0
  | Some T => height T
  end.

(** A store with [h("div", {title: ""}, "x")] at 2 and
    [h("div", {title: "a"}, "x")] at 5. *)
Definition sample_store : store :=
  <[5 := HObject [("type", VStr "div"); ("props", VObj 3); ("children", VObj 4)]]>
  (<[4 := HArray [VStr "x"]]>
  (<[3 := HObject [("title", VStr "a")]]>
  (<[2 := HObject [("type", VStr "div"); ("props", VObj 0); ("children", VObj 1)]]>
  (<[1 := HArray [VStr "x"]]>
  (<[0 := HObject [("title", VStr "")]]> ∅))))).

(** A statement that leaves every object of the store it is given as it
    is (it may add objects). *)
Definition frames (a : hact) : Prop :=
  forall st t st' o, a st t = Some (st', o) -> st ⊆ st'.

(** From store [st] on, [ha] returns, does to the live tree what the
    action [a] on trees does, and leaves the objects of the store. *)
Definition refines (st : store) (ha : hact) (a : action) : Prop :=
  forall st1 t, st ⊆ st1 ->
    exists st2, ha st1 t = Some (st2, a t) /\ st1 ⊆ st2.

End Heap.

(** ** Pairs of trees the reconciler handles *)

(** The children of two elements, position by position: [R] on every
    position both lists have; new children past the old ones are free; at
    most one old child past the new ones, and that one is present. *)
Section pairs_ok.
Context (R : vnode -> vnode -> bool).

Fixpoint pairs_ok (news olds : list vnode) {struct news} : bool :=
  match news, olds with
  | n :: news', o :: olds' => R n o && pairs_ok news' olds'
  | _ :: _, [] => true
  | [], [] => true
  | [], [o] => node_truthy (Some o)
  | [], _ :: _ :: _ => false
  end.

End pairs_ok.

(** Both nodes are present, and they are changed, or equal strings, or
    elements of the same non-empty type, both without props, whose children
    are such pairs. *)
Fixpoint reconcilable (new old : vnode) {struct new} : bool :=
  node_truthy (Some new) && node_truthy (Some old)
  && (changed new old
      || match new, old with
         | VText _, _ => true
         | VElem ty newProps news, VElem _ oldProps olds =>
             truthy (VStr ty)
             && bool_decide (newProps = []) && bool_decide (oldProps = [])
             && pairs_ok reconcilable news olds
         | VElem _ _ _, VText _ => false
         end).

(** ** Every other element of a list *)

(** The elements at positions 1, 3, 5, ... and those at 0, 2, 4, ... *)
Fixpoint odd_indexed {A : Type} (l : list A) : list A :=
  match l with
  | _ :: x :: l' => x :: odd_indexed l'
  | _ => []
  end.

Fixpoint even_indexed {A : Type} (l : list A) : list A :=
  match l with
  | x :: _ :: l' => x :: even_indexed l'
  | [x] => [x]
  | [] => []
  end.

(** ** What a reconciliation does to live nodes *)

(** The subscriptions among the calls a run issued, in order. *)
Definition subscription_of (e : event) : list (string * value) :=
  match e with
  | EvAddEventListener ty hd => [(ty, hd)]
  | _ => []
  end.

Definition subscriptions (lg : list event) : list (string * value) :=
  flat_map subscription_of lg.

(** The subscriptions [createElement] issues while it makes the nodes of
    the given virtual nodes, one after the other. *)
Definition subscriptions_made (made : list vnode) : list (string * value) :=
  flat_map (fun n => subscriptions (log (createElement_node n))) made.

(** [reconciles newNode oldNode i cs cs' made]: a call of [update] with
    these nodes and this index may turn the children [cs] of its parent
    into [cs'], materializing the virtual nodes [made] on the way.  The
    children stay as they are and nothing is made (nothing to do, or an
    exception before anything is made); or the new node is materialized
    and the command that would put it in raises (an append to a node that
    takes no children, a replacement where index [i] holds no child); or
    the node materialized from the new node is appended; or the child at
    [i] is removed; or it is replaced by the node materialized from the new
    node; or it is patched: that child keeps its tag, its attributes and
    its listeners, and its own children are reconciled position by position
    from 0, up to the end of the loop or to the exception that leaves it.
    A live node that was there before the call is kept, removed, or kept
    with other children: no constructor gives it a listener. *)
Inductive reconciles
  : jsnode -> jsnode -> nat -> list live -> list live -> list vnode -> Prop :=
  | reconciles_nothing newNode oldNode i cs :
      reconciles newNode oldNode i cs cs []
  | reconciles_append_refused new oldNode i :
      node_truthy oldNode = false ->
      reconciles (Some new) oldNode i [] [] [new]
  | reconciles_replace_missing new old i cs :
      node_truthy (Some old) = true ->
      node_truthy (Some new) = true ->
      changed new old = true ->
      cs !! i = None ->
      reconciles (Some new) (Some old) i cs cs [new]
  | reconciles_append new oldNode i cs :
      node_truthy oldNode = false ->
      reconciles (Some new) oldNode i cs (cs ++ [createElement_result new])
                 [new]
  | reconciles_remove newNode oldNode i cs c :
      node_truthy oldNode = true ->
      node_truthy newNode = false ->
      cs !! i = Some c ->
      reconciles newNode oldNode i cs (delete i cs) []
  | reconciles_replace new old i cs c :
      node_truthy (Some old) = true ->
      node_truthy (Some new) = true ->
      changed new old = true ->
      cs !! i = Some c ->
      reconciles (Some new) (Some old) i cs
                 (<[i := createElement_result new]> cs) [new]
  | reconciles_patch ty newProps news ty' oldProps olds i cs c kids' made :
      changed (VElem ty newProps news) (VElem ty' oldProps olds) = false ->
      cs !! i = Some c ->
      reconciles_from news olds 0 (childNodes_of c) kids' made ->
      reconciles (Some (VElem ty newProps news)) (Some (VElem ty' oldProps olds))
                 i cs (<[i := with_childNodes c kids']> cs) made
with reconciles_from
  : list vnode -> list vnode -> nat -> list live -> list live -> list vnode
    -> Prop :=
  | reconciles_from_stop news olds j kids :
      reconciles_from news olds j kids kids []
  | reconciles_from_step news olds j kids kids1 kids2 made1 made2 :
      reconciles (news !! j) (olds !! j) j kids kids1 made1 ->
      reconciles_from news olds (S j) kids1 kids2 made2 ->
      reconciles_from news olds j kids kids2 (made1 ++ made2).

(** The outcome [o] of a run on the node [p]: [p] with its children
    reconciled, and no subscription issued but those of the nodes made. *)
Definition reconciled (newNode oldNode : jsnode) (index : nat) (p : live)
    (o : outcome) : Prop :=
  exists p' made,
    final o = Some p'
    /\ p' = with_childNodes p (childNodes_of p')
    /\ reconciles newNode oldNode index (childNodes_of p) (childNodes_of p') made
    /\ subscriptions (log o) = subscriptions_made made.

(** ** Proof tactics *)

(** Case analysis on every [match] of the goal, for the branches of [update]
    that end in one collaborator call. *)
Ltac now_own_children :=
  repeat match goal with
         | |- context [match ?x with _ => _ end] => destruct x
         end;
  cbn; first [ eassumption | eexists; reflexivity ].

(** The same on a hypothesis about membership in a log. *)
Ltac log_cases H :=
  repeat match type of H with
         | context [match ?x with _ => _ end] => destruct x
         end;
  cbn in H;
  first [ now apply elem_of_nil in H
        | apply list_elem_of_singleton in H; eauto ].

(** * Properties *)

(** ** Sequencing *)

Lemma andThen_ext (a b1 b2 : action) (t : option live) :
  (forall t', b1 t' = b2 t') -> (a ;;; b1) t = (a ;;; b2) t.
Proof.
  intros Hb. unfold andThen. destruct (res (a t)); [|reflexivity].
  now rewrite Hb.
Qed.

Lemma forEach_ext {A : Type} (xs : list A) (f g : A -> action) :
  (forall x t, x ∈ xs -> f x t = g x t) ->
  forall t, forEach xs f t = forEach xs g t.
Proof.
  induction xs as [|x xs IH]; intros Hfg t; [reflexivity|].
  cbn [forEach]. unfold andThen.
  rewrite (Hfg x t) by constructor.
  destruct (res (g x t)); [|reflexivity].
  rewrite IH; [reflexivity|].
  intros y t' Hy. apply Hfg. now constructor.
Qed.

Lemma forEach_app {A : Type} (xs ys : list A) (f : A -> action) (t : option live) :
  forEach (xs ++ ys) f t = (forEach xs f ;;; forEach ys f) t.
Proof.
  revert t. induction xs as [|x xs IH]; intros t.
  - cbn. unfold andThen, skip. cbn. now destruct (forEach ys f t).
  - cbn [app forEach]. unfold andThen. fold (forEach (A := A)).
    destruct (res (f x t)) eqn:Hr; cbn.
    + rewrite IH. unfold andThen.
      destruct (res (forEach xs f (final (f x t)))) eqn:Hr'; cbn.
      * now rewrite app_assoc.
      * now rewrite Hr'.
    + rewrite Hr. reflexivity.
Qed.

Lemma in_child_ext (index : nat) (a b : action) (t : option live) :
  (forall c, a c = b c) -> in_child index a t = in_child index b t.
Proof.
  intros Hab. destruct t as [p|]; [|reflexivity].
  cbn. now rewrite Hab.
Qed.

(** An invariant of the node reference kept by every step is kept by the
    whole, however it completes. *)
Lemma andThen_inv (I : option live -> Prop) (a b : action) (t : option live) :
  (forall t', I t' -> I (final (a t'))) ->
  (forall t', I t' -> I (final (b t'))) ->
  I t -> I (final ((a ;;; b) t)).
Proof.
  intros Ha Hb Ht. unfold andThen.
  destruct (res (a t)); cbn; auto.
Qed.

Lemma forEach_inv {A : Type} (I : option live -> Prop) (xs : list A)
    (f : A -> action) :
  (forall x t, x ∈ xs -> I t -> I (final (f x t))) ->
  forall t, I t -> I (final (forEach xs f t)).
Proof.
  induction xs as [|x xs IH]; intros Hf t Ht; [exact Ht|].
  cbn [forEach]. apply andThen_inv; auto.
  - intros t' Ht'. apply Hf; [constructor|exact Ht'].
  - intros t' Ht'. apply IH; [|exact Ht'].
    intros y t'' Hy. apply Hf. now constructor.
Qed.

(** ** The recursion equation of [update]

    [update] is its body with the loop calling [update] itself on
    [newNode.children[i]] and [oldNode.children[i]]. *)

Lemma update_step_ext (kid1 kid2 : list vnode -> list vnode -> nat -> action)
    (newNode oldNode : jsnode) (index : nat) (parent : option live) :
  (forall ty ps cs, newNode = Some (VElem ty ps cs) ->
     forall olds i t, kid1 cs olds i t = kid2 cs olds i t) ->
  update_step kid1 newNode oldNode index parent
  = update_step kid2 newNode oldNode index parent.
Proof.
  intros Hk. unfold update_step.
  destruct (negb (node_truthy oldNode)); [reflexivity|].
  destruct (negb (node_truthy newNode)); [reflexivity|].
  destruct newNode as [new|]; [|reflexivity].
  destruct oldNode as [old|]; [|reflexivity].
  destruct (changed new old); [reflexivity|].
  destruct (truthy (node_type new)); [|reflexivity].
  destruct new as [s|ty ps cs]; [reflexivity|].
  destruct old as [s'|ty' ps' cs']; [reflexivity|].
  apply andThen_ext. intros t'. apply forEach_ext. intros i t'' _.
  apply in_child_ext. intros c. now apply (Hk ty ps cs).
Qed.

Lemma update_unfold (newNode oldNode : jsnode) (index : nat) (parent : option live) :
  update newNode oldNode index parent
  = update_step (fun news olds i => update (news !! i) (olds !! i) i)
                newNode oldNode index parent.
Proof.
  destruct newNode as [n|]; cbn [update].
  - destruct n as [s|ty ps cs]; cbn [update_node];
      apply update_step_ext; intros ty' ps' cs' [= <- <- <-] olds i t.
    rewrite list_lookup_fmap.
    destruct (cs !! i) as [c|]; reflexivity.
  - apply update_step_ext. intros ty ps cs [=].
Qed.

(** ** Change detection *)

Lemma changed_same_text (s : string) : changed (VText s) (VText s) = false.
Proof.
  unfold changed, strict_neq, strict_eq; cbn.
  repeat case_bool_decide; cbn; congruence.
Qed.

Lemma changed_same_type (ty : string) (p p' : object) (c c' : list vnode) :
  changed (VElem ty p c) (VElem ty p' c') = false.
Proof.
  unfold changed, strict_neq, strict_eq; cbn.
  repeat case_bool_decide; cbn; congruence.
Qed.

(** C4.  For all virtual nodes, [changed] holds exactly when one of the two
    is a string and the other is not, or both are strings with different
    contents, or both are elements with different tag names; two equal
    strings, and two elements of the same type whatever their props and
    children, are not changed. *)
Theorem changed_iff_spec (newNode oldNode : vnode) (s ty : string)
    (p p' : object) (c c' : list vnode) :
  (changed newNode oldNode = true <-> changed_spec newNode oldNode)
  /\ changed (VText s) (VText s) = false
  /\ changed (VElem ty p c) (VElem ty p' c') = false.
Proof.
  split; [|split].
  - destruct newNode as [s1|t1 p1 c1], oldNode as [s2|t2 p2 c2];
      unfold changed, strict_neq, strict_eq; cbn;
      repeat case_bool_decide; cbn; split; intros Hc;
      try discriminate; try reflexivity;
      first [ now apply changed_shape
            | apply changed_text; congruence
            | apply changed_tag; congruence
            | inversion Hc as [? ? Hs| |]; subst; cbn in *; congruence ].
  - apply changed_same_text.
  - apply changed_same_type.
Qed.

(** ** The property diff *)

(** No scope of [updateProp] binds [newVal]. *)
Lemma newVal_unbound (target : option live) (name : string) (newValue oldValue : value) :
  resolve (updateProp_scope target name newValue oldValue) "newVal" = None.
Proof. reflexivity. Qed.

(** Every call of [updateProp] raises a ReferenceError before it touches
    its target. *)
Lemma updateProp_raises (name : string) (newValue oldValue : value)
    (target : option live) :
  updateProp name newValue oldValue target
  = Outcome target [EvCall_updateProp name newValue oldValue]
            (Throw (ReferenceError "newVal")).
Proof. reflexivity. Qed.

(** C1.  [updateProp] at new value [""] and old value ["a"] for [title]:
    the call raises a ReferenceError and the attribute stays, and so does
    reconciling [{title: "a"}] to [{title: ""}] on a rendered node. *)
Theorem updateProp_title_falsy :
  let el := LElem "div" [("title", VStr "a")] [] [] in
  updateProp "title" (VStr "") (VStr "a") (Some el)
  = Outcome (Some el) [EvCall_updateProp "title" (VStr "") (VStr "a")]
            (Throw (ReferenceError "newVal"))
  /\ update (Some (h "div" (Some [("title", VStr "")]) []))
            (Some (h "div" (Some [("title", VStr "a")]) []))
            0 (Some (LElem "body" [] [] [el]))
     = Outcome (Some (LElem "body" [] [] [el]))
               [EvCall_updateProp "title" (VStr "") (VStr "a")]
               (Throw (ReferenceError "newVal")).
Proof. split; reflexivity. Qed.

(** ** The property reconciler *)






(** The walk ends at its first key: the call for it raises. *)
Lemma updateProps_outcome (newProps : object) (oldProps : option object)
    (target : option live) :
  updateProps newProps oldProps target
  = match Object_keys (Object_assign [] [newProps; default [] oldProps]) with
    | [] => Outcome target [] Normal
    | k :: _ =>
        Outcome target
                [EvCall_updateProp k (get newProps k) (get (default [] oldProps) k)]
                (Throw (ReferenceError "newVal"))
    end.
Proof.
  unfold updateProps.
  destruct (Object_keys (Object_assign [] [newProps; default [] oldProps]));
    reflexivity.
Qed.

(** C5.  [updateProps] at new props [{id: "a", title: "b"}] and old props
    [{}]: [updateProp] is invoked for [id] only; the call raises and the
    walk never reaches [title]. *)
Theorem updateProps_stops_at_first_key (target : option live) :
  updateProps [("id", VStr "a"); ("title", VStr "b")] (Some []) target
  = Outcome target [EvCall_updateProp "id" (VStr "a") VUndefined]
            (Throw (ReferenceError "newVal")).
Proof. reflexivity. Qed.

(** ** Materialization *)

Lemma andThen_normal (a b : action) (t t' : option live) (lg : list event) :
  a t = Outcome t' lg Normal ->
  (a ;;; b) t = Outcome (final (b t')) (lg ++ log (b t')) (res (b t')).
Proof. intros Ha. unfold andThen. now rewrite Ha. Qed.

Lemma set_attrs_cons (props : object) (k : string) (keys : list string)
    (at_ : object) :
  set_attrs props (k :: keys) at_
  = set_attrs props keys
      (if isCustomProp k then at_
       else if bool_decide (k = "className") then put at_ "class" (get props k)
       else put at_ k (get props k)).
Proof. reflexivity. Qed.

Lemma add_listeners_cons (props : object) (k : string) (keys : list string)
    (ls : list (string * value)) :
  add_listeners props (k :: keys) ls
  = add_listeners props keys
      (if isEventProp k then ls ++ [(extractEventName k, get props k)] else ls).
Proof. reflexivity. Qed.

Lemma setProps_elem (props : object) (keys : list string) (ty : string)
    (at_ : object) (ls : list (string * value)) (cs : list live) :
  exists lg,
    forEach keys (fun name => setProp name (get props name))
            (Some (LElem ty at_ ls cs))
    = Outcome (Some (LElem ty (set_attrs props keys at_) ls cs)) lg Normal.
Proof.
  revert at_. induction keys as [|k keys IH]; intros at_; cbn [forEach].
  - now exists [].
  - rewrite set_attrs_cons. unfold setProp at 1.
    destruct (isCustomProp k).
    + destruct (IH at_) as [lg Hlg]. exists lg.
      erewrite andThen_normal by reflexivity. now rewrite Hlg.
    + destruct (bool_decide (k = "className")).
      * destruct (IH (put at_ "class" (get props k))) as [lg Hlg].
        eexists. erewrite andThen_normal by reflexivity. now rewrite Hlg.
      * destruct (IH (put at_ k (get props k))) as [lg Hlg].
        eexists. erewrite andThen_normal by reflexivity. now rewrite Hlg.
Qed.

Lemma addEventListeners_elem (props : object) (keys : list string)
    (ty : string) (at_ : object) (ls : list (string * value)) (cs : list live) :
  exists lg,
    forEach keys
            (fun name =>
               if isEventProp name
               then addEventListener (extractEventName name) (get props name)
               else skip)
            (Some (LElem ty at_ ls cs))
    = Outcome (Some (LElem ty at_ (add_listeners props keys ls) cs)) lg Normal.
Proof.
  revert ls. induction keys as [|k keys IH]; intros ls; cbn [forEach].
  - now exists [].
  - rewrite add_listeners_cons.
    destruct (isEventProp k).
    + destruct (IH (ls ++ [(extractEventName k, get props k)])) as [lg Hlg].
      eexists. erewrite andThen_normal by reflexivity. now rewrite Hlg.
    + destruct (IH ls) as [lg Hlg]. exists lg.
      erewrite andThen_normal by reflexivity. now rewrite Hlg.
Qed.

Lemma appendChild_each (ms : list live) (ty : string) (at_ : object)
    (ls : list (string * value)) (cs : list live) :
  exists lg,
    forEach (map Some ms) appendChild (Some (LElem ty at_ ls cs))
    = Outcome (Some (LElem ty at_ ls (cs ++ ms))) lg Normal.
Proof.
  revert cs. induction ms as [|m ms IH]; intros cs; cbn [map forEach].
  - exists []. now rewrite app_nil_r.
  - destruct (IH (cs ++ [m])) as [lg Hlg].
    eexists. erewrite andThen_normal by reflexivity.
    rewrite Hlg. cbn. now rewrite <- app_assoc.
Qed.

Lemma collect_created (cs : list vnode) :
  Forall (fun c => exists lg,
            createElement_node c
            = Outcome (Some (createElement_result c)) lg Normal) cs ->
  exists lg,
    collect (map createElement_node cs)
    = (map Some (map createElement_result cs), lg, Normal).
Proof.
  induction 1 as [|c cs [lg Hc] _ [lgs IH]]; cbn [map collect].
  - now exists [].
  - rewrite Hc. cbn. rewrite IH. now eexists.
Qed.

(** [createElement] of a virtual node completes normally with a node. *)
Lemma createElement_node_total (node : vnode) :
  exists lg,
    createElement_node node
    = Outcome (Some (createElement_result node)) lg Normal.
Proof.
  induction node as [s|ty ps cs IH] using vnode_ind;
    cbn [createElement_node createElement_result].
  - now exists [].
  - destruct (setProps_elem ps (Object_keys ps) ty [] [] []) as [l1 H1].
    destruct (addEventListeners_elem ps (Object_keys ps) ty
                (set_attrs ps (Object_keys ps) []) [] []) as [l2 H2].
    destruct (collect_created cs IH) as [l3 H3].
    destruct (appendChild_each (map createElement_result cs) ty
                (set_attrs ps (Object_keys ps) [])
                (add_listeners ps (Object_keys ps) []) []) as [l4 H4].
    eexists. unfold setProps, addEventListeners.
    erewrite andThen_normal by exact H1.
    erewrite andThen_normal by exact H2.
    unfold appendAll. rewrite H3, H4. cbn. reflexivity.
Qed.

Lemma get_app_notin (pre o : object) (k : string) :
  k ∉ Object_keys pre -> get (pre ++ o) k = get o k.
Proof.
  induction pre as [|[k' v'] pre IH]; cbn; intros Hni; [reflexivity|].
  change (Object_keys ((k', v') :: pre)) with (k' :: Object_keys pre) in Hni.
  apply not_elem_of_cons in Hni as [Hne Hni].
  destruct (decide (k' = k)); [congruence|auto].
Qed.

Lemma get_middle (pre suf : object) (k : string) (v : value) :
  wf_object (pre ++ (k, v) :: suf) -> get (pre ++ (k, v) :: suf) k = v.
Proof.
  unfold wf_object, Object_keys. rewrite fmap_app. cbn.
  intros Hnd. apply NoDup_app in Hnd as (_ & Hdis & _).
  rewrite get_app_notin.
  - cbn. now rewrite decide_True.
  - intros Hin. apply (Hdis k Hin). constructor.
Qed.

Lemma set_attrs_spec_gen (pre suf acc : object) :
  wf_object (pre ++ suf) ->
  set_attrs (pre ++ suf) (Object_keys suf) acc
  = fold_left (fun at_ kv => put at_ (attribute_name kv.1) kv.2)
              (filter (fun kv => isCustomProp kv.1 = false) suf) acc.
Proof.
  revert pre acc. induction suf as [|[k v] suf IH]; intros pre acc Hwf.
  - reflexivity.
  - change (Object_keys ((k, v) :: suf)) with (k :: Object_keys suf).
    rewrite set_attrs_cons, (get_middle pre suf k v Hwf).
    rewrite filter_cons. cbn [fst].
    replace (pre ++ (k, v) :: suf) with ((pre ++ [(k, v)]) ++ suf) in *
      by now rewrite <- app_assoc.
    destruct (isCustomProp k) eqn:Hk.
    + rewrite decide_False by discriminate. now apply IH.
    + rewrite decide_True by reflexivity. cbn [fold_left fst snd].
      rewrite IH by exact Hwf. unfold attribute_name.
      now destruct (bool_decide (k = "className")).
Qed.

Lemma add_listeners_spec_gen (pre suf : object) (acc : list (string * value)) :
  wf_object (pre ++ suf) ->
  add_listeners (pre ++ suf) (Object_keys suf) acc
  = acc ++ map (fun kv => (extractEventName kv.1, kv.2))
               (filter (fun kv => isEventProp kv.1 = true) suf).
Proof.
  revert pre acc. induction suf as [|[k v] suf IH]; intros pre acc Hwf.
  - cbn. now rewrite app_nil_r.
  - change (Object_keys ((k, v) :: suf)) with (k :: Object_keys suf).
    rewrite add_listeners_cons, (get_middle pre suf k v Hwf).
    rewrite filter_cons. cbn [fst].
    replace (pre ++ (k, v) :: suf) with ((pre ++ [(k, v)]) ++ suf) in *
      by now rewrite <- app_assoc.
    destruct (isEventProp k) eqn:Hk.
    + rewrite decide_True by reflexivity. cbn [map fst snd].
      rewrite IH by exact Hwf. now rewrite <- app_assoc.
    + rewrite decide_False by discriminate. now apply IH.
Qed.

(** On trees whose props objects have unique keys, [createElement] builds
    the node the specification describes. *)
Lemma createElement_result_spec (node : vnode) :
  wf_vnode node = true -> createElement_result node = materialize_spec node.
Proof.
  induction node as [s|ty ps cs IH] using vnode_ind; intros Hwf;
    cbn [createElement_result materialize_spec]; [reflexivity|].
  cbn [wf_vnode] in Hwf. apply andb_true_iff in Hwf as [Hps Hcs].
  apply bool_decide_eq_true in Hps.
  f_equal.
  - apply (set_attrs_spec_gen [] ps []). exact Hps.
  - apply (add_listeners_spec_gen [] ps []). exact Hps.
  - rewrite forallb_forall in Hcs.
    apply map_ext_in. intros c Hc.
    rewrite Forall_forall in IH. apply IH; [now apply list_elem_of_In|].
    now apply Hcs.
Qed.

(** ** Insertion, removal and replacement at a position *)

(** The script of the source renders its heading into an empty body. *)
Lemma script_renders :
  script (Some (LElem "body" [] [] []))
  = Outcome (Some (LElem "body" [] [] [LElem "h2" [] [] [LText "Hello World!"]]))
            [EvAppendChild (LText "Hello World!");
             EvAppendChild (LElem "h2" [] [] [LText "Hello World!"])]
            Normal.
Proof. reflexivity. Qed.

Lemma update_append (newNode : vnode) (oldNode : jsnode) (index : nat)
    (tg : string) (at_ : object) (ls : list (string * value)) (cs : list live) :
  node_truthy oldNode = false ->
  exists lg,
    createElement (Some newNode)
    = Outcome (Some (createElement_result newNode)) lg Normal
    /\ update (Some newNode) oldNode index (Some (LElem tg at_ ls cs))
       = Outcome (Some (LElem tg at_ ls (cs ++ [createElement_result newNode])))
                 (lg ++ [EvAppendChild (createElement_result newNode)]) Normal.
Proof.
  intros Hold. destruct (createElement_node_total newNode) as [lg Hlg].
  exists lg. split; [exact Hlg|].
  rewrite update_unfold. unfold update_step. rewrite Hold. cbn [negb].
  unfold on_object, withCreated. cbn [createElement]. now rewrite Hlg.
Qed.

Lemma update_remove (newNode oldNode : jsnode) (index : nat) (parent c : live) :
  node_truthy oldNode = true -> node_truthy newNode = false ->
  childNodes_of parent !! index = Some c ->
  update newNode oldNode index (Some parent)
  = Outcome (Some (with_childNodes parent (delete index (childNodes_of parent))))
            [EvRemoveChild c] Normal.
Proof.
  intros Hold Hnew Hc.
  rewrite update_unfold. unfold update_step. rewrite Hold, Hnew. cbn [negb].
  unfold removeChild_at. now rewrite Hc.
Qed.

Lemma update_replace (new old : vnode) (index : nat) (parent c : live) :
  node_truthy (Some old) = true -> node_truthy (Some new) = true ->
  changed new old = true ->
  childNodes_of parent !! index = Some c ->
  exists lg,
    update (Some new) (Some old) index (Some parent)
    = Outcome (Some (with_childNodes parent
                       (<[index := createElement_result new]> (childNodes_of parent))))
              (lg ++ [EvReplaceChild (createElement_result new) c]) Normal.
Proof.
  intros Hold Hnew Hch Hc. destruct (createElement_node_total new) as [lg Hlg].
  exists lg.
  rewrite update_unfold. unfold update_step. rewrite Hold, Hnew, Hch. cbn [negb].
  unfold on_object, withCreated. cbn [createElement]. rewrite Hlg.
  cbn. now rewrite Hc.
Qed.

(** C3.  Reconciling [(parent, T, undefined)] against a live parent without
    children completes normally and leaves the parent with exactly one
    child: the node [createElement(T)] returns, which on a tree with unique
    props keys is the node the specification's materializer describes. *)
Theorem initial_render_is_materialization (T : vnode) (index : option nat)
    (tg : string) (at_ : object) (ls : list (string * value)) :
  wf_vnode T = true ->
  exists lg,
    createElement (Some T) = Outcome (Some (materialize_spec T)) lg Normal
    /\ Reflex_update (Some T) None index (Some (LElem tg at_ ls []))
       = Outcome (Some (LElem tg at_ ls [materialize_spec T]))
                 (lg ++ [EvAppendChild (materialize_spec T)]) Normal.
Proof.
  intros Hwf. unfold Reflex_update.
  destruct (update_append T None (default 0 index) tg at_ ls []) as (lg & H1 & H2);
    [reflexivity|].
  rewrite (createElement_result_spec T Hwf) in H1, H2.
  exists lg. split; [exact H1|exact H2].
Qed.

Lemma initial_render_is_materialization_witness :
  exists lg,
    createElement (Some (h "h2" (Some [("className", VStr "t"); ("onClick", VFun 7)])
                           [VText "Hello World!"]))
    = Outcome (Some (LElem "h2" [("class", VStr "t")] [("click", VFun 7)]
                           [LText "Hello World!"])) lg Normal
    /\ Reflex_update
         (Some (h "h2" (Some [("className", VStr "t"); ("onClick", VFun 7)])
                  [VText "Hello World!"]))
         None None (Some (LElem "body" [] [] []))
       = Outcome
           (Some (LElem "body" [] []
                        [LElem "h2" [("class", VStr "t")] [("click", VFun 7)]
                               [LText "Hello World!"]]))
           (lg ++ [EvAppendChild
                     (LElem "h2" [("class", VStr "t")] [("click", VFun 7)]
                            [LText "Hello World!"])]) Normal.
Proof.
  apply (initial_render_is_materialization
           (h "h2" (Some [("className", VStr "t"); ("onClick", VFun 7)])
              [VText "Hello World!"]) None "body" [] []).
  vm_compute. reflexivity.
Defined.




(** C9.  Called without an index, the entry point works at child position 0:
    when the call removes or replaces, it is the first live child of the
    parent that is removed or replaced, and the other children stay. *)
Theorem entry_point_targets_first_child (newNode oldNode : jsnode)
    (tg : string) (at_ : object) (ls : list (string * value))
    (c : live) (rest : list live) :
  removes_or_replaces newNode oldNode = true ->
  exists lg,
    Reflex_update newNode oldNode None (Some (LElem tg at_ ls (c :: rest)))
    = Outcome (Some (LElem tg at_ ls (put_in_place newNode ++ rest)))
              (lg ++ [command_on newNode c]) Normal.
Proof.
  unfold removes_or_replaces, Reflex_update. cbn [default].
  intros H. apply andb_true_iff in H as [Hold H].
  destruct (node_truthy newNode) eqn:Hnew; cbn [negb orb] in H.
  - destruct newNode as [new|]; [|discriminate].
    destruct oldNode as [old|]; [|discriminate].
    destruct (update_replace new old 0 (LElem tg at_ ls (c :: rest)) c)
      as [lg Hlg]; auto.
    exists lg. unfold put_in_place, command_on. rewrite Hnew. exact Hlg.
  - exists [].
    rewrite (update_remove newNode oldNode 0 (LElem tg at_ ls (c :: rest)) c)
      by auto.
    unfold put_in_place, command_on. rewrite Hnew.
    now destruct newNode.
Qed.

Lemma entry_point_targets_first_child_witness :
  exists lg,
    Reflex_update (Some (h "span" None [VText "x"]))
                  (Some (h "div" None [VText "x"])) None
                  (Some (LElem "body" [] []
                               [LElem "div" [("id", VStr "d")] [] [LText "x"];
                                LText "tail"]))
    = Outcome (Some (LElem "body" [] []
                           ([LElem "span" [] [] [LText "x"]] ++ [LText "tail"])))
              (lg ++ [EvReplaceChild
                        (LElem "span" [] [] [LText "x"])
                        (LElem "div" [("id", VStr "d")] [] [LText "x"])])
              Normal.
Proof.
  apply (entry_point_targets_first_child
           (Some (h "span" None [VText "x"])) (Some (h "div" None [VText "x"]))
           "body" [] [] (LElem "div" [("id", VStr "d")] [] [LText "x"])
           [LText "tail"]).
  reflexivity.
Defined.

(** ** Reconciling a tree against itself *)

Lemma quiet_skip : quiet skip.
Proof. intros t. cbn. auto. Qed.

Lemma quiet_throw (e : error) : quiet (throw e).
Proof. intros t. cbn. auto. Qed.

Lemma quiet_andThen (a b : action) : quiet a -> quiet b -> quiet (a ;;; b).
Proof.
  intros Ha Hb t. unfold andThen.
  destruct (Ha t) as [Hfa Hla].
  destruct (res (a t)); [|auto]. cbn.
  destruct (Hb (final (a t))) as [Hfb Hlb].
  split; [congruence|]. apply Forall_app. auto.
Qed.

Lemma quiet_forEach {A : Type} (xs : list A) (f : A -> action) :
  (forall x, x ∈ xs -> quiet (f x)) -> quiet (forEach xs f).
Proof.
  induction xs as [|x xs IH]; intros Hf; cbn [forEach].
  - apply quiet_skip.
  - apply quiet_andThen.
    + apply Hf. constructor.
    + apply IH. intros y Hy. apply Hf. now constructor.
Qed.

Lemma with_childNodes_id (p : live) : with_childNodes p (childNodes_of p) = p.
Proof. now destruct p. Qed.

Lemma quiet_in_child (index : nat) (a : action) :
  quiet a -> quiet (in_child index a).
Proof.
  intros Ha [p|]; [|apply quiet_throw].
  cbn. destruct (Ha (childNodes_of p !! index)) as [Hf Hl].
  split; [|exact Hl]. rewrite Hf.
  destruct (childNodes_of p !! index) as [c|] eqn:Hc; [|reflexivity].
  now rewrite list_insert_id, with_childNodes_id.
Qed.

Lemma quiet_updateProps (newProps : object) (oldProps : option object) :
  quiet (updateProps newProps oldProps).
Proof.
  intros t. rewrite updateProps_outcome.
  destruct (Object_keys _); cbn; auto.
Qed.

Lemma no_empty_text_truthy (T : vnode) :
  no_empty_text T = true -> node_truthy (Some T) = true.
Proof. destruct T; cbn; auto. Qed.

Lemma changed_same (T : vnode) : changed T T = false.
Proof.
  destruct T as [s|ty ps cs].
  - apply (changed_same_text s).
  - apply (changed_same_type ty ps ps cs cs).
Qed.

Lemma self_update_quiet (T : vnode) :
  no_empty_text T = true -> forall index, quiet (update (Some T) (Some T) index).
Proof.
  induction T as [s|ty ps cs IH] using vnode_ind; intros Hne index t;
    rewrite update_unfold; unfold update_step;
    rewrite (no_empty_text_truthy _ Hne), changed_same; cbn [negb].
  - apply quiet_skip.
  - cbn [node_type]. destruct (truthy (VStr ty)); [|apply quiet_skip].
    apply quiet_andThen.
    + apply quiet_in_child, quiet_updateProps.
    + apply quiet_forEach. intros i Hi. apply quiet_in_child.
      apply elem_of_seq in Hi as [_ Hi]. rewrite Nat.max_id in Hi. cbn in Hi.
      destruct (lookup_lt_is_Some_2 cs i Hi) as [c Hc]. rewrite Hc.
      cbn [no_empty_text] in Hne. rewrite forallb_forall in Hne.
      rewrite Forall_forall in IH.
      assert (Hin : c ∈ cs) by (apply list_elem_of_lookup; eauto).
      apply IH; [exact Hin|]. apply Hne. now apply list_elem_of_In.
Qed.

(** Idempotence where no text node is the empty string: for every such
    virtual tree, every node reference and every index, reconciling the
    tree against itself leaves the live tree as it was and issues no
    attribute, listener or child command. *)
Lemma self_reconcile_no_mutation (T : vnode) (index : nat)
    (parent : option live) :
  no_empty_text T = true ->
  final (update (Some T) (Some T) index parent) = parent
  /\ Forall (fun e => is_mutation e = false)
            (log (update (Some T) (Some T) index parent)).
Proof.
  intros Hne. now apply self_update_quiet.
Qed.

Lemma self_reconcile_no_mutation_witness :
  let T := h "ul" None [h "li" None [VText "a"]; VText "b"] in
  let parent := Some (LElem "body" [] []
                            [LElem "ul" [] [] [LElem "li" [] [] [LText "a"];
                                               LText "b"]]) in
  final (update (Some T) (Some T) 0 parent) = parent
  /\ Forall (fun e => is_mutation e = false)
            (log (update (Some T) (Some T) 0 parent)).
Proof.
  apply (self_reconcile_no_mutation
           (h "ul" None [h "li" None [VText "a"]; VText "b"]) 0).
  reflexivity.
Defined.

(** C2.  Reconciling a tree against itself is not free of mutations: the
    live child was rendered from [h("div", {}, "")], and reconciling that
    tree against itself appends a second empty text node to it.  The first
    test of [update] takes the old node [""] for an absent one, although
    [createElement] and [changed] treat it as the text node it is. *)
Lemma self_reconcile_appends_empty_text :
  let T := h "div" None [VText ""] in
  let rendered := LElem "div" [] [] [LText ""] in
  let parent := LElem "body" [] [] [rendered] in
  final (createElement (Some T)) = Some rendered
  /\ update (Some T) (Some T) 0 (Some parent)
     = Outcome (Some (LElem "body" [] [] [LElem "div" [] [] [LText ""; LText ""]]))
               [EvAppendChild (LText "")] Normal
  /\ ~ (final (update (Some T) (Some T) 0 (Some parent)) = Some parent
        /\ Forall (fun e => is_mutation e = false)
                  (log (update (Some T) (Some T) 0 (Some parent)))).
Proof.
  cbv zeta. split; [reflexivity|]. split; [reflexivity|].
  intros [Hf _]. vm_compute in Hf. discriminate.
Qed.

(** ** What an action on a child does to the parent *)

Lemma with_childNodes_twice (p : live) (a b : list live) :
  with_childNodes (with_childNodes p a) b = with_childNodes p b.
Proof. now destruct p. Qed.

(** [in_child index a] keeps the parent's own fields and every child but
    the one at [index], which becomes what [a] made of it. *)
Lemma in_child_Some (index : nat) (a : action) (p : live) :
  exists p',
    final (in_child index a (Some p)) = Some p'
    /\ p' = with_childNodes p (childNodes_of p')
    /\ length (childNodes_of p') = length (childNodes_of p)
    /\ (forall j, j <> index -> childNodes_of p' !! j = childNodes_of p !! j)
    /\ childNodes_of p' !! index
       = match childNodes_of p !! index with
         | Some c => Some (default c (final (a (Some c))))
         | None => None
         end.
Proof.
  destruct p as [d|tg at_ ls cs]; cbn.
  - exists (LText d). cbn. repeat split.
    now destruct (final (a ([] !! index))).
  - destruct (cs !! index) as [c|] eqn:Hc.
    + destruct (final (a (Some c))) as [c'|]; cbn.
      * eexists. split; [reflexivity|]. cbn. repeat split.
        -- apply length_insert.
        -- intros j Hj. now apply list_lookup_insert_ne.
        -- apply list_lookup_insert_eq. now apply lookup_lt_Some in Hc.
      * exists (LElem tg at_ ls cs). cbn. repeat split. exact Hc.
    + exists (LElem tg at_ ls cs). cbn.
      assert (Hge : length cs <= index) by now apply lookup_ge_None.
      destruct (final (a None)) as [c'|]; cbn; repeat split; try exact Hc.
      now rewrite list_insert_ge.
Qed.

(** [update] changes the children of the node it is given, never the
    node's own tag, attributes or listeners. *)
Lemma update_own_children (newNode oldNode : jsnode) (index : nat) (p : live) :
  exists cs', final (update newNode oldNode index (Some p))
              = Some (with_childNodes p cs').
Proof.
  rewrite update_unfold. unfold update_step.
  assert (Hid : exists cs', Some p = Some (with_childNodes p cs'))
    by (exists (childNodes_of p); now rewrite with_childNodes_id).
  assert (Hin : forall (a : action) t,
             (exists cs', t = Some (with_childNodes p cs')) ->
             exists cs', final (in_child index a t) = Some (with_childNodes p cs')).
  { intros a t [cs' ->].
    destruct (in_child_Some index a (with_childNodes p cs')) as (p' & Hf & Hp' & _).
    rewrite Hf, Hp', with_childNodes_twice. eauto. }
  destruct (negb (node_truthy oldNode)).
  { unfold on_object, withCreated, appendChild. now_own_children. }
  destruct (negb (node_truthy newNode)).
  { unfold removeChild_at. now_own_children. }
  destruct newNode as [new|]; [|exact Hid].
  destruct oldNode as [old|]; [|exact Hid].
  destruct (changed new old).
  { unfold on_object, withCreated, replaceChild_at. now_own_children. }
  destruct (truthy (node_type new)); [|exact Hid].
  destruct new as [s|ty ps cs]; [exact Hid|].
  destruct old as [s'|ty' ps' cs']; [exact Hid|].
  apply (andThen_inv (fun t => exists cs', t = Some (with_childNodes p cs'))).
  - intros t Ht. now apply Hin.
  - intros t Ht. apply (forEach_inv (fun t => exists cs', t = Some (with_childNodes p cs')));
      [|exact Ht].
    intros i t' _ Ht'. now apply Hin.
  - exact Hid.
Qed.

(** ** Event subscription *)

Lemma log_andThen (a b : action) (t : option live) (e : event) :
  e ∈ log ((a ;;; b) t) -> e ∈ log (a t) \/ exists t', e ∈ log (b t').
Proof.
  unfold andThen. destruct (res (a t)); cbn; [|auto].
  rewrite elem_of_app. intros [H|H]; eauto.
Qed.

Lemma log_forEach {A : Type} (xs : list A) (f : A -> action) (t : option live)
    (e : event) :
  e ∈ log (forEach xs f t) -> exists x t', x ∈ xs /\ e ∈ log (f x t').
Proof.
  revert t. induction xs as [|x xs IH]; intros t; cbn [forEach].
  - cbn. intros H. now apply elem_of_nil in H.
  - intros H. apply log_andThen in H as [H|[t' H]].
    + exists x, t. split; [constructor|exact H].
    + destruct (IH t' H) as (y & t'' & Hy & He).
      exists y, t''. split; [now constructor|exact He].
Qed.

Lemma log_in_child (index : nat) (a : action) (t : option live) (e : event) :
  e ∈ log (in_child index a t) -> exists c, e ∈ log (a c).
Proof.
  destruct t as [p|]; cbn.
  - eauto.
  - intros H. now apply elem_of_nil in H.
Qed.

Lemma log_withCreated (oc : outcome) (k : option live -> action)
    (t : option live) (e : event) :
  e ∈ log (withCreated oc k t) -> e ∈ log oc \/ exists c t', e ∈ log (k c t').
Proof.
  unfold withCreated. destruct (res oc); cbn; [|auto].
  rewrite elem_of_app. intros [H|H]; eauto.
Qed.

(** The property reconciler subscribes nothing. *)
Lemma updateProps_no_subscription (newProps : object) (oldProps : option object)
    (target : option live) (ty : string) (hd : value) :
  EvAddEventListener ty hd ∉ log (updateProps newProps oldProps target).
Proof.
  rewrite updateProps_outcome. destruct (Object_keys _); cbn.
  - apply not_elem_of_nil.
  - intros H. apply list_elem_of_singleton in H. discriminate.
Qed.

Lemma log_on_object (a : action) (t : option live) (e : event) :
  e ∈ log (on_object a t) -> e ∈ log (a t).
Proof.
  destruct t; cbn; [auto|]. intros H. now apply elem_of_nil in H.
Qed.

Lemma log_appendChild (c t : option live) (e : event) :
  e ∈ log (appendChild c t) -> exists c', e = EvAppendChild c'.
Proof. unfold appendChild. intros H. log_cases H. Qed.

Lemma log_removeChild_at (index : nat) (t : option live) (e : event) :
  e ∈ log (removeChild_at index t) -> exists c', e = EvRemoveChild c'.
Proof. unfold removeChild_at. intros H. log_cases H. Qed.

Lemma log_replaceChild_at (c : option live) (index : nat) (t : option live)
    (e : event) :
  e ∈ log (replaceChild_at c index t) -> exists c' c'', e = EvReplaceChild c' c''.
Proof. unfold replaceChild_at. intros H. log_cases H. Qed.

(** The events of [update] with no subscription from [createElement] in
    them: a run that makes no node, or makes a text node. *)
Lemma log_update_step_other (kid : list vnode -> list vnode -> nat -> action)
    (newNode oldNode : jsnode) (index : nat) (t : option live)
    (ty : string) (hd : value) :
  EvAddEventListener ty hd ∈ log (update_step kid newNode oldNode index t) ->
  EvAddEventListener ty hd ∈ log (createElement newNode)
  \/ exists tyn ps cs ty' ps' cs' i c,
       newNode = Some (VElem tyn ps cs) /\ oldNode = Some (VElem ty' ps' cs')
       /\ EvAddEventListener ty hd ∈ log (kid cs cs' i c).
Proof.
  unfold update_step.
  destruct (negb (node_truthy oldNode)).
  { intros H. apply log_on_object, log_withCreated in H as [H|(c & t' & H)];
      [now left|].
    apply log_appendChild in H as [c' [=]]. }
  destruct (negb (node_truthy newNode)).
  { intros H. apply log_removeChild_at in H as [c' [=]]. }
  destruct newNode as [new|]; [|intros H; now apply elem_of_nil in H].
  destruct oldNode as [old|]; [|intros H; now apply elem_of_nil in H].
  destruct (changed new old).
  { intros H. apply log_on_object, log_withCreated in H as [H|(c & t' & H)];
      [now left|].
    apply log_replaceChild_at in H as (c' & c'' & [=]). }
  destruct (truthy (node_type new)); [|intros H; now apply elem_of_nil in H].
  destruct new as [s|tyn ps cs]; [intros H; now apply elem_of_nil in H|].
  destruct old as [s'|ty' ps' cs']; [intros H; now apply elem_of_nil in H|].
  intros H. apply log_andThen in H as [H|[t' H]].
  - apply log_in_child in H as [c H].
    now apply updateProps_no_subscription in H.
  - apply log_forEach in H as (i & t'' & _ & H).
    apply log_in_child in H as [c H].
    right. exists tyn, ps, cs, ty', ps', cs', i, c. auto.
Qed.

(** Every subscription issued during a reconciliation is one issued by
    [createElement] for a node of the new tree. *)
Lemma subscription_is_materialization (new : vnode) :
  forall (oldNode : jsnode) (index : nat) (t : option live) (ty : string)
         (hd : value),
    EvAddEventListener ty hd ∈ log (update (Some new) oldNode index t) ->
    exists n, subtree n new
              /\ EvAddEventListener ty hd ∈ log (createElement_node n).
Proof.
  induction new as [s|tyn ps cs IH] using vnode_ind;
    intros oldNode index t ty hd; rewrite update_unfold; intros H;
    apply log_update_step_other in H
      as [H|(tyn' & ps' & cs' & ty'' & ps'' & cs'' & i & c & Hn & Ho & H)].
  - now apply elem_of_nil in H.
  - discriminate.
  - exists (VElem tyn ps cs). split; [constructor|exact H].
  - injection Hn as <- <- <-.
    destruct (cs !! i) as [ci|] eqn:Hci.
    + rewrite Forall_forall in IH.
      assert (Hin : ci ∈ cs) by (apply list_elem_of_lookup; eauto).
      destruct (IH ci Hin _ _ _ _ _ H) as (n & Hsub & Hin').
      exists n. split; [|exact Hin']. now apply (subtree_below n tyn ps cs ci).
    + exfalso. rewrite update_unfold in H.
      apply log_update_step_other in H as [H|(? & ? & ? & ? & ? & ? & ? & ? & [=] & _)].
      now apply elem_of_nil in H.
Qed.

Lemma updateProps_final (newProps : object) (oldProps : option object)
    (target : option live) :
  final (updateProps newProps oldProps target) = target.
Proof. apply quiet_updateProps. Qed.

(** A node materialized with [{onClick: fn1}] and reconciled to
    [{onClick: fn2}], for any tag and any two handlers: the rendered node is
    left with the first handler and the second is never subscribed. *)
Lemma handler_not_rebound (tag : string) (fn1 fn2 : value) :
  let old := h tag (Some [("onClick", fn1)]) [] in
  let new := h tag (Some [("onClick", fn2)]) [] in
  let rendered := LElem tag [] [("click", fn1)] [] in
  let o := update (Some new) (Some old) 0 (Some (LElem "body" [] [] [rendered])) in
  final (createElement (Some old)) = Some rendered
  /\ final o = Some (LElem "body" [] [] [rendered])
  /\ forall ty hd, EvAddEventListener ty hd ∉ log o.
Proof.
  cbv zeta. split; [reflexivity|].
  rewrite update_unfold. unfold update_step, h. cbn [default node_truthy negb].
  rewrite changed_same_type. cbn [node_type].
  destruct (truthy (VStr tag)).
  - split; [reflexivity|]. intros ty hd H. cbn in H.
    apply list_elem_of_singleton in H. discriminate.
  - split; [reflexivity|]. intros ty hd H. now apply elem_of_nil in H.
Qed.

Lemma in_child_run (index : nat) (a : action) (p c c' : live)
    (lg : list event) (r : completion) :
  childNodes_of p !! index = Some c ->
  a (Some c) = Outcome (Some c') lg r ->
  in_child index a (Some p)
  = Outcome (Some (with_childNodes p (<[index := c']> (childNodes_of p)))) lg r.
Proof. intros Hc Ha. unfold in_child. now rewrite Hc, Ha. Qed.

Lemma subscriptions_app (l1 l2 : list event) :
  subscriptions (l1 ++ l2) = subscriptions l1 ++ subscriptions l2.
Proof. apply flat_map_app. Qed.

Lemma subscriptions_made_app (m1 m2 : list vnode) :
  subscriptions_made (m1 ++ m2) = subscriptions_made m1 ++ subscriptions_made m2.
Proof. apply flat_map_app. Qed.

Lemma subscriptions_made_one (n : vnode) :
  subscriptions_made [n] = subscriptions (log (createElement_node n)).
Proof. unfold subscriptions_made. cbn. apply app_nil_r. Qed.

Lemma reconciled_nothing (newNode oldNode : jsnode) (index : nat) (p : live)
    (o : outcome) :
  final o = Some p -> subscriptions (log o) = [] ->
  reconciled newNode oldNode index p o.
Proof.
  intros Hf Hl. exists p, []. split; [exact Hf|].
  split; [now rewrite with_childNodes_id|].
  split; [apply reconciles_nothing|exact Hl].
Qed.

Lemma reconciled_unplaced (new : vnode) (oldNode : jsnode) (index : nat)
    (p : live) (o : outcome) :
  reconciles (Some new) oldNode index (childNodes_of p) (childNodes_of p) [new] ->
  final o = Some p ->
  subscriptions (log o) = subscriptions (log (createElement_node new)) ->
  reconciled (Some new) oldNode index p o.
Proof.
  intros Hr Hf Hl. exists p, [new]. split; [exact Hf|].
  split; [now rewrite with_childNodes_id|].
  split; [exact Hr|now rewrite subscriptions_made_one].
Qed.

Lemma reconciled_children (newNode oldNode : jsnode) (index : nat)
    (tg : string) (at_ : object) (ls : list (string * value))
    (cs cs' : list live) (made : list vnode) (o : outcome) :
  final o = Some (LElem tg at_ ls cs') ->
  reconciles newNode oldNode index cs cs' made ->
  subscriptions (log o) = subscriptions_made made ->
  reconciled newNode oldNode index (LElem tg at_ ls cs) o.
Proof.
  intros Hf Hr Hl. exists (LElem tg at_ ls cs'), made. repeat split; assumption.
Qed.

(** Against [undefined] as its parent, [update] leaves the reference as
    it is and issues nothing. *)
Lemma update_on_undefined (newNode oldNode : jsnode) (index : nat) :
  final (update newNode oldNode index None) = None
  /\ log (update newNode oldNode index None) = [].
Proof.
  rewrite update_unfold. unfold update_step.
  destruct (negb (node_truthy oldNode)); [split; reflexivity|].
  destruct (negb (node_truthy newNode)); [split; reflexivity|].
  destruct newNode as [new|]; [|split; reflexivity].
  destruct oldNode as [old|]; [|split; reflexivity].
  destruct (changed new old); [split; reflexivity|].
  destruct (truthy (node_type new)); [|split; reflexivity].
  destruct new as [s|ty ps cs]; [split; reflexivity|].
  destruct old as [s'|ty' ps' cs']; split; reflexivity.
Qed.

(** Steps that leave the node as it is and issue nothing. *)
Lemma forEach_idle {A : Type} (xs : list A) (f : A -> action) (t : option live) :
  (forall x, x ∈ xs -> final (f x t) = t /\ log (f x t) = []) ->
  final (forEach xs f t) = t /\ log (forEach xs f t) = [].
Proof.
  induction xs as [|x xs IH]; intros Hf; [split; reflexivity|].
  cbn [forEach]. unfold andThen.
  destruct (Hf x) as [Hfx Hlx]; [constructor|].
  destruct IH as [IHf IHl]; [intros y Hy; apply Hf; now constructor|].
  destruct (res (f x t)); cbn [final log]; [|auto].
  rewrite Hfx, Hlx, IHf, IHl. auto.
Qed.

(** The loop of [update] over a present child: the child keeps its own
    fields, its children are reconciled from position [j], and the
    subscriptions issued are those of the nodes made. *)
Lemma loop_reconciles (news olds : list vnode) (index : nat)
    (tg : string) (at_ : object) (ls : list (string * value)) :
  (forall j c, reconciled (news !! j) (olds !! j) j c
                 (update (news !! j) (olds !! j) j (Some c))) ->
  forall k j cs c,
    cs !! index = Some c ->
    exists kids' made,
      final (forEach (seq j k)
               (fun i => in_child index (update (news !! i) (olds !! i) i))
               (Some (LElem tg at_ ls cs)))
      = Some (LElem tg at_ ls (<[index := with_childNodes c kids']> cs))
      /\ reconciles_from news olds j (childNodes_of c) kids' made
      /\ subscriptions
           (log (forEach (seq j k)
                   (fun i => in_child index (update (news !! i) (olds !! i) i))
                   (Some (LElem tg at_ ls cs))))
         = subscriptions_made made.
Proof.
  intros Hkid. induction k as [|k IH]; intros j cs c Hc.
  - exists (childNodes_of c), []. cbn.
    rewrite with_childNodes_id, list_insert_id by exact Hc.
    split; [reflexivity|]. split; [apply reconciles_from_stop|reflexivity].
  - cbn [seq forEach].
    destruct (Hkid j c) as (c1 & made1 & Hf1 & Hc1 & Hr1 & Hl1).
    destruct (update (news !! j) (olds !! j) j (Some c)) as [f1 lg1 r1] eqn:Hup.
    cbn [final log] in Hf1, Hl1. subst f1.
    unfold andThen.
    rewrite (in_child_run index _ (LElem tg at_ ls cs) c c1 lg1 r1 Hc Hup).
    cbn [res final log with_childNodes childNodes_of].
    destruct r1 as [|e].
    + destruct (IH (S j) (<[index := c1]> cs) c1) as (kids2 & made2 & Hf2 & Hr2 & Hl2).
      { apply list_lookup_insert_eq. now apply lookup_lt_Some in Hc. }
      exists kids2, (made1 ++ made2). cbn [final log].
      rewrite Hf2, list_insert_insert_eq. split; [|split].
      * rewrite Hc1, with_childNodes_twice. reflexivity.
      * now apply (reconciles_from_step news olds j _ (childNodes_of c1)).
      * now rewrite subscriptions_app, subscriptions_made_app, Hl1, Hl2.
    + exists (childNodes_of c1), (made1 ++ []). cbn [final log].
      rewrite <- Hc1. split; [reflexivity|]. split.
      * apply (reconciles_from_step news olds j _ (childNodes_of c1));
          [exact Hr1|apply reconciles_from_stop].
      * now rewrite app_nil_r.
Qed.

Lemma update_step_reconciled (newNode oldNode : jsnode) (index : nat) (p : live) :
  (forall ty ps news ty' ps' olds,
      newNode = Some (VElem ty ps news) -> oldNode = Some (VElem ty' ps' olds) ->
      forall j c, reconciled (news !! j) (olds !! j) j c
                    (update (news !! j) (olds !! j) j (Some c))) ->
  reconciled newNode oldNode index p (update newNode oldNode index (Some p)).
Proof.
  intros Hkid. rewrite update_unfold. unfold update_step.
  destruct (negb (node_truthy oldNode)) eqn:Hold.
  { apply negb_true_iff in Hold.
    destruct newNode as [new|]; [|now apply reconciled_nothing].
    destruct (createElement_node_total new) as [lg Hlg].
    unfold on_object, withCreated. cbn [createElement]. rewrite Hlg.
    cbn [res final log appendChild].
    destruct p as [d|tg at_ ls cs]; cbn.
    - apply reconciled_unplaced;
        [now apply reconciles_append_refused|reflexivity|].
      cbn. now rewrite Hlg, app_nil_r.
    - eapply reconciled_children;
        [reflexivity|now apply reconciles_append|].
      cbn [log]. rewrite subscriptions_app, subscriptions_made_one, Hlg.
      cbn. now rewrite app_nil_r. }
  apply negb_false_iff in Hold.
  destruct (negb (node_truthy newNode)) eqn:Hnew.
  { apply negb_true_iff in Hnew. unfold removeChild_at.
    destruct (childNodes_of p !! index) as [c|] eqn:Hc;
      [|now apply reconciled_nothing].
    destruct p as [d|tg at_ ls cs]; [discriminate|]. cbn in *.
    eapply reconciled_children;
      [reflexivity|now apply (reconciles_remove _ _ _ _ c)|reflexivity]. }
  apply negb_false_iff in Hnew.
  destruct newNode as [new|]; [|now apply reconciled_nothing].
  destruct oldNode as [old|]; [|now apply reconciled_nothing].
  destruct (changed new old) eqn:Hch.
  { destruct (createElement_node_total new) as [lg Hlg].
    unfold on_object, withCreated, replaceChild_at. cbn [createElement].
    rewrite Hlg. cbn [res final log].
    destruct (childNodes_of p !! index) as [c|] eqn:Hc.
    - destruct p as [d|tg at_ ls cs]; [discriminate|]. cbn in *.
      eapply reconciled_children;
        [reflexivity|now apply (reconciles_replace _ _ _ _ c)|].
      cbn [log]. rewrite subscriptions_app, subscriptions_made_one, Hlg.
      cbn. now rewrite app_nil_r.
    - apply reconciled_unplaced;
        [now apply reconciles_replace_missing|reflexivity|].
      cbn. now rewrite Hlg, app_nil_r. }
  destruct (truthy (node_type new)); [|now apply reconciled_nothing].
  destruct new as [s|ty ps news]; [now apply reconciled_nothing|].
  destruct old as [s'|ty' ps' olds]; [now apply reconciled_nothing|].
  assert (Hprops : exists lgp r,
             in_child index (updateProps ps (Some ps')) (Some p)
             = Outcome (Some p) lgp r
             /\ subscriptions lgp = []).
  { unfold in_child. rewrite updateProps_outcome.
    exists (log (updateProps ps (Some ps') (childNodes_of p !! index))),
           (res (updateProps ps (Some ps') (childNodes_of p !! index))).
    rewrite updateProps_outcome.
    destruct (Object_keys _); cbn [final log res];
      (split; [|reflexivity]);
      destruct (childNodes_of p !! index) as [c|] eqn:Hc;
      try rewrite list_insert_id by exact Hc;
      try rewrite with_childNodes_id; reflexivity. }
  destruct Hprops as (lgp & r & Hprops & Hsub).
  unfold andThen at 1. rewrite Hprops. cbn [res final log].
  destruct r as [|e]; [|now apply reconciled_nothing].
  destruct (childNodes_of p !! index) as [c|] eqn:Hc.
  - destruct p as [d|tg at_ ls cs]; [discriminate|]. cbn in Hc.
    destruct (loop_reconciles news olds index tg at_ ls
                (Hkid ty ps news ty' ps' olds eq_refl eq_refl)
                (max (length news) (length olds)) 0 cs c Hc)
      as (kids' & made & Hf & Hr & Hl).
    eapply reconciled_children;
      [exact Hf|apply reconciles_patch; [exact Hch|exact Hc|exact Hr]|].
    cbn [log]. now rewrite subscriptions_app, Hsub, Hl.
  - destruct (forEach_idle (seq 0 (max (length news) (length olds)))
                (fun i => in_child index (update (news !! i) (olds !! i) i))
                (Some p)) as [Hsf Hsl].
    { intros i _. unfold in_child. rewrite Hc.
      destruct (update_on_undefined (news !! i) (olds !! i) i) as [-> ->].
      now split. }
    apply reconciled_nothing; cbn [final log]; [exact Hsf|].
    now rewrite subscriptions_app, Hsub, Hsl.
Qed.

Lemma update_reconciled (newNode oldNode : jsnode) (index : nat) (p : live) :
  reconciled newNode oldNode index p (update newNode oldNode index (Some p)).
Proof.
  destruct newNode as [new|];
    [|apply update_step_reconciled; intros ? ? ? ? ? ? [=]].
  revert oldNode index p.
  induction new as [s|ty ps news IH] using vnode_ind; intros oldNode index p;
    apply update_step_reconciled; intros ty0 ps0 news0 ty' ps' olds [=] Ho j c.
  subst. destruct (news0 !! j) as [n|] eqn:Hn.
  - rewrite Forall_forall in IH. apply IH. apply list_elem_of_lookup; eauto.
  - apply update_step_reconciled. intros ? ? ? ? ? ? [=].
Qed.

(** C6.  A call of [update] never subscribes a handler on a live node.  The
    node it is given keeps its own fields and its children are reconciled:
    at every depth a live node that was there before the call is kept,
    removed, replaced by a newly materialized node, or patched with the
    listeners it had; the subscriptions the run issues are, one for one and
    in order, those [createElement] issues while it materializes the new
    nodes it makes, each of them a node of the new tree.  So a node
    materialized with [{onClick: fn1}] and then reconciled to
    [{onClick: fn2}] under the same tag is left with [fn1] as its one
    handler, and no subscription is issued. *)
Theorem reconcile_never_subscribes (newNode oldNode : jsnode) (index : nat)
    (parent : live) (tag : string) (fn1 fn2 : value) :
  reconciled newNode oldNode index parent
    (update newNode oldNode index (Some parent))
  /\ (forall ty hd,
        EvAddEventListener ty hd
          ∈ log (update newNode oldNode index (Some parent)) ->
        exists new n,
          newNode = Some new /\ subtree n new
          /\ EvAddEventListener ty hd ∈ log (createElement_node n))
  /\ (let old := h tag (Some [("onClick", fn1)]) [] in
      let new := h tag (Some [("onClick", fn2)]) [] in
      let rendered := LElem tag [] [("click", fn1)] [] in
      let o := update (Some new) (Some old) 0
                      (Some (LElem "body" [] [] [rendered])) in
      final (createElement (Some old)) = Some rendered
      /\ final o = Some (LElem "body" [] [] [rendered])
      /\ forall ty hd, EvAddEventListener ty hd ∉ log o).
Proof.
  split; [apply update_reconciled|]. split; [|apply handler_not_rebound].
  intros ty hd H. destruct newNode as [new|].
  - destruct (subscription_is_materialization new oldNode index (Some parent)
                ty hd H) as (n & Hsub & Hn).
    now exists new, n.
  - exfalso. rewrite update_unfold in H.
    apply log_update_step_other
      in H as [H|(? & ? & ? & ? & ? & ? & ? & ? & [=] & _)].
    now apply elem_of_nil in H.
Qed.

(** A nested case: the button sits two levels below the parent, next to a
    text that changes; the text is replaced, the button keeps [fn1]. *)
Lemma nested_handler_not_rebound :
  let fn1 := VFun 101 in
  let fn2 := VFun 102 in
  let old := h "div" None [VText "a"; h "button" (Some [("onClick", fn1)]) []] in
  let new := h "div" None [VText "b"; h "button" (Some [("onClick", fn2)]) []] in
  update (Some new) (Some old) 0
         (Some (LElem "body" [] []
                      [LElem "div" [] []
                             [LText "a"; LElem "button" [] [("click", fn1)] []]]))
  = Outcome (Some (LElem "body" [] []
                         [LElem "div" [] []
                                [LText "b"; LElem "button" [] [("click", fn1)] []]]))
            [EvReplaceChild (LText "b") (LText "a");
             EvCall_updateProp "onClick" fn2 fn1]
            (Throw (ReferenceError "newVal")).
Proof. reflexivity. Qed.

Lemma reconciles_from_none (j : nat) (kids kids' : list live)
    (made : list vnode) :
  reconciles_from [] [] j kids kids' made -> made = [].
Proof.
  intros H. remember (@nil vnode) as news eqn:Hn in H at 1.
  remember (@nil vnode) as olds eqn:Ho in H.
  induction H as [|news olds j kids kids1 kids2 made1 made2 H1 _ IH];
    [reflexivity|].
  subst. rewrite IH by reflexivity.
  inversion H1; subst; try reflexivity; discriminate.
Qed.

(** The relation tells a subscription on a live node apart: in the scenario
    above, an outcome whose button has [fn2] bound, after [fn1] or in place
    of it, is not a reconciled one; nor is one that issued a subscription
    and left the button as it was. *)
Lemma reconciled_excludes_subscription (tag : string) (fn1 fn2 : value)
    (ls' : list (string * value)) (lg : list event) (r : completion) :
  let old := h tag (Some [("onClick", fn1)]) [] in
  let new := h tag (Some [("onClick", fn2)]) [] in
  let rendered := LElem tag [] [("click", fn1)] [] in
  fn1 <> fn2 ->
  (forall at_' kids',
      ("click", fn2) ∈ ls' ->
      ~ reconciled (Some new) (Some old) 0 (LElem "body" [] [] [rendered])
          (Outcome (Some (LElem "body" [] [] [LElem tag at_' ls' kids'])) lg r))
  /\ (subscriptions lg <> [] ->
      ~ reconciled (Some new) (Some old) 0 (LElem "body" [] [] [rendered])
          (Outcome (Some (LElem "body" [] [] [rendered])) lg r)).
Proof.
  cbv zeta. intros Hne. split.
  - intros at_' kids' Hin (p' & made & [= <-] & _ & Hr & _).
    cbn [childNodes_of] in Hr. unfold h in Hr. cbn [default] in Hr.
    inversion Hr as [ | | ? ? ? ? ? ? Hch | | | ? ? ? ? ? ? ? Hch
                      | ? ? ? ? ? ? ? ? c ? ? Hch Hc Hfrom ]; subst.
    + apply list_elem_of_singleton in Hin. congruence.
    + rewrite changed_same_type in Hch. discriminate.
    + rewrite changed_same_type in Hch. discriminate.
    + injection Hc as <-. cbn in *.
      match goal with
      | H : LElem _ _ _ _ = LElem _ _ _ _ |- _ => injection H as _ <- _
      end.
      apply list_elem_of_singleton in Hin. congruence.
  - intros Hsub (p' & made & [= <-] & _ & Hr & Hl).
    cbn [childNodes_of log] in Hr, Hl. unfold h in Hr. cbn [default] in Hr.
    apply Hsub. rewrite Hl. clear Hl Hsub.
    inversion Hr as [ | | ? ? ? ? ? ? Hch | | | ? ? ? ? ? ? ? Hch
                      | ? ? ? ? ? ? ? ? c ? ? Hch Hc Hfrom ]; subst.
    + reflexivity.
    + rewrite changed_same_type in Hch. discriminate.
    + rewrite changed_same_type in Hch. discriminate.
    + now rewrite (reconciles_from_none _ _ _ _ Hfrom).
Qed.

(** ** Child removal by index *)

(** With the new node absent and the old one present, [update] is the
    removal of the live child at the index it is given. *)
Lemma update_absent_is_removal (oldNode : jsnode) (i : nat) (t : option live) :
  node_truthy oldNode = true ->
  update None oldNode i t = removeChild_at i t.
Proof.
  intros Ho. rewrite update_unfold. unfold update_step. now rewrite Ho.
Qed.

(** The run on old children [A, B, C, D] and new children [A]: [B] is
    removed at index 1, then [D] at index 2, then index 3 holds no child
    and [removeChild] raises; [C] stays. *)
Lemma trailing_removal_example :
  update (Some (h "ul" None [VText "A"]))
         (Some (h "ul" None [VText "A"; VText "B"; VText "C"; VText "D"]))
         0 (Some (LElem "body" [] []
                        [LElem "ul" [] []
                               [LText "A"; LText "B"; LText "C"; LText "D"]]))
  = Outcome (Some (LElem "body" [] [] [LElem "ul" [] [] [LText "A"; LText "C"]]))
            [EvRemoveChild (LText "B"); EvRemoveChild (LText "D")]
            (Throw TypeError).
Proof. reflexivity. Qed.

(** ** Virtual nodes are not written to *)

Lemma heap_alloc_subseteq (st : Heap.store) (o : Heap.hobj) :
  st ⊆ (Heap.alloc st o).1.
Proof.
  unfold Heap.alloc. cbn. apply insert_subseteq.
  apply not_elem_of_dom, is_fresh.
Qed.

Lemma heap_alloc_fresh (st : Heap.store) (o : Heap.hobj) :
  exists l, Heap.alloc st o = (<[l := o]> st, VObj l) /\ st !! l = None.
Proof.
  exists (fresh (dom st)). split; [reflexivity|].
  apply not_elem_of_dom, is_fresh.
Qed.

(** The merge writes the object it is given as target and nothing else. *)
Lemma heap_assign_other (st : Heap.store) (l : nat) (sources : list value)
    (l' : nat) :
  l' <> l -> Heap.assign st (VObj l) sources !! l' = st !! l'.
Proof.
  intros Hne. unfold Heap.assign.
  destruct (st !! l) as [[fs|es]|]; try reflexivity.
  now apply lookup_insert_ne.
Qed.

Lemma heap_updateProps_frames (newProps oldProps : value) :
  Heap.frames (Heap.updateProps newProps oldProps).
Proof.
  intros st t st' o. unfold Heap.updateProps.
  set (d := match oldProps with
            | VUndefined => Heap.alloc st (Heap.HObject [])
            | _ => (st, oldProps)
            end).
  assert (Hd : st ⊆ d.1).
  { subst d. destruct oldProps; try reflexivity. apply heap_alloc_subseteq. }
  destruct d as [st0 old']. cbn in Hd.
  destruct (heap_alloc_fresh st0 (Heap.HObject [])) as (l & -> & Hl).
  assert (Hsub : st ⊆ Heap.assign (<[l := Heap.HObject []]> st0) (VObj l)
                                  [newProps; old']).
  { etrans; [exact Hd|]. apply map_subseteq_spec. intros l' o' Ho'.
    rewrite heap_assign_other by (intros ->; congruence).
    rewrite lookup_insert_ne by (intros ->; congruence). exact Ho'. }
  destruct (Heap.own_fields _ (VObj l)); intros [= <- _]; exact Hsub.
Qed.

Lemma heap_hlift_frames (a : action) : Heap.frames (Heap.hlift a).
Proof. intros st t st' o [= <- _]. reflexivity. Qed.

Lemma heap_hseq_frames (a b : Heap.hact) :
  Heap.frames a -> Heap.frames b -> Heap.frames (Heap.hseq a b).
Proof.
  intros Ha Hb st t st' o. unfold Heap.hseq.
  destruct (a st t) as [[st1 o1]|] eqn:Ha1; [|discriminate].
  apply Ha in Ha1.
  destruct (res o1).
  - destruct (b st1 (final o1)) as [[st2 o2]|] eqn:Hb1; [|discriminate].
    apply Hb in Hb1. intros [= <- _]. now transitivity st1.
  - now intros [= <- _].
Qed.

Lemma heap_hforEach_frames {A : Type} (xs : list A) (f : A -> Heap.hact) :
  (forall x, Heap.frames (f x)) -> Heap.frames (Heap.hforEach xs f).
Proof.
  intros Hf. induction xs as [|x xs IH]; cbn [Heap.hforEach].
  - apply heap_hlift_frames.
  - now apply heap_hseq_frames.
Qed.

Lemma heap_in_child_frames (index : nat) (a : Heap.hact) :
  Heap.frames a -> Heap.frames (Heap.h_in_child index a).
Proof.
  intros Ha st t st' o. unfold Heap.h_in_child.
  destruct t as [p|]; [|now intros [= <- _]].
  destruct (a st (childNodes_of p !! index)) as [[st1 o1]|] eqn:Ha1;
    [|discriminate].
  apply Ha in Ha1. now intros [= <- _].
Qed.

(** Whatever the node positions hold and however deep the call goes, a
    call of [update] that returns leaves every object of the store as it
    was. *)
Lemma heap_update_frames (fuel : nat) :
  forall (newNode oldNode : value) (index : nat),
    Heap.frames (Heap.update fuel newNode oldNode index).
Proof.
  induction fuel as [|fuel IH]; intros newNode oldNode index st t st' o;
    [discriminate|].
  cbn [Heap.update].
  destruct (negb (truthy oldNode)).
  { destruct (Heap.createElement (S fuel) st newNode); [|discriminate].
    now intros [= <- _]. }
  destruct (negb (truthy newNode)); [now intros [= <- _]|].
  destruct (Heap.changed st newNode oldNode) as [[|]|]; [| |now intros [= <- _]].
  { destruct (Heap.createElement (S fuel) st newNode); [|discriminate].
    now intros [= <- _]. }
  destruct (Heap.member st newNode "type") as [ty|]; [|now intros [= <- _]].
  destruct (truthy ty); [|now intros [= <- _]].
  destruct (Heap.member st newNode "props") as [newProps|]; [|now intros [= <- _]].
  destruct (Heap.member st oldNode "props") as [oldProps|]; [|now intros [= <- _]].
  destruct (Heap.member st newNode "children") as [newChildren|];
    [|now intros [= <- _]].
  destruct (Heap.member st oldNode "children") as [oldChildren|];
    [|now intros [= <- _]].
  apply heap_hseq_frames.
  - apply heap_in_child_frames, heap_updateProps_frames.
  - intros st1 t1 st2 o2.
    destruct (Heap.elems_of st1 newChildren) as [news|]; [|now intros [= <- _]].
    destruct (Heap.elems_of st1 oldChildren) as [olds|]; [|now intros [= <- _]].
    apply heap_hforEach_frames. intros i. apply heap_in_child_frames, IH.
Qed.

(** ** The store embedding on stored trees is the tree embedding *)

Lemma heap_all2_impl {A B : Type} (R R' : A -> B -> Prop) (xs : list A)
    (ys : list B) :
  (forall x y, x ∈ xs -> R x y -> R' x y) ->
  Heap.all2 R xs ys -> Heap.all2 R' xs ys.
Proof.
  revert ys. induction xs as [|x xs IH]; intros [|y ys] HR; cbn; try tauto.
  intros [Hxy Hall]. split.
  - apply HR; [constructor|exact Hxy].
  - apply IH; [|exact Hall]. intros x' y' Hx'. apply HR. now constructor.
Qed.

Lemma heap_all2_lookup {A B : Type} (R : A -> B -> Prop) (xs : list A)
    (ys : list B) :
  Heap.all2 R xs ys ->
  length xs = length ys
  /\ forall i x y, xs !! i = Some x -> ys !! i = Some y -> R x y.
Proof.
  revert ys. induction xs as [|x xs IH]; intros [|y ys]; cbn; try tauto.
  - intros _. split; [reflexivity|]. intros i x y Hx. discriminate.
  - intros [Hxy Hall]. destruct (IH ys Hall) as [Hlen Hlk].
    split; [now f_equal|].
    intros [|i] x' y'; cbn.
    + now intros [= <-] [= <-].
    + apply Hlk.
Qed.

Lemma heap_represents_weaken (st st' : Heap.store) (T : vnode) :
  st ⊆ st' -> forall v, Heap.represents st v T -> Heap.represents st' v T.
Proof.
  intros Hsub. induction T as [s|ty ps cs IH] using vnode_ind; intros v;
    cbn [Heap.represents]; [auto|].
  intros (l & lp & lc & fs & vs & -> & Hl & Hty & Hps & Hcs & Hlp & Hlc & Hall).
  exists l, lp, lc, fs, vs.
  repeat split; eauto using lookup_weaken.
  eapply heap_all2_impl; [|exact Hall].
  intros c v' Hin. rewrite Forall_forall in IH. now apply IH.
Qed.

Lemma heap_represents_opt_weaken (st st' : Heap.store) (n : jsnode) (v : value) :
  st ⊆ st' -> Heap.represents_opt st v n -> Heap.represents_opt st' v n.
Proof.
  destruct n as [T|]; cbn; [|auto]. intros Hsub. now apply heap_represents_weaken.
Qed.

Lemma heap_truthy_represents (st : Heap.store) (v : value) (n : jsnode) :
  Heap.represents_opt st v n -> truthy v = node_truthy n.
Proof.
  destruct n as [[s|ty ps cs]|]; cbn.
  - now intros ->.
  - now intros (l & lp & lc & fs & vs & -> & _).
  - now intros ->.
Qed.

Lemma heap_member_type (st : Heap.store) (v : value) (T : vnode) :
  Heap.represents st v T -> Heap.member st v "type" = Some (node_type T).
Proof.
  destruct T as [s|ty ps cs]; cbn.
  - now intros ->.
  - intros (l & lp & lc & fs & vs & -> & Hl & Hty & _). cbn.
    now rewrite Hl, Hty.
Qed.

Lemma heap_typeof_represents (st : Heap.store) (v1 v2 : value) (T1 T2 : vnode) :
  Heap.represents st v1 T1 -> Heap.represents st v2 T2 ->
  bool_decide (Heap.typeof v1 = Heap.typeof v2)
  = bool_decide (typeof T1 = typeof T2)
  /\ bool_decide (Heap.typeof v1 = "string") = bool_decide (typeof T1 = TyString).
Proof.
  destruct T1 as [s1|ty1 ps1 cs1], T2 as [s2|ty2 ps2 cs2]; cbn;
    repeat (intros (? & ? & ? & ? & ? & -> & _) || intros ->); split; reflexivity.
Qed.

Lemma heap_changed_represents (st : Heap.store) (v1 v2 : value) (T1 T2 : vnode) :
  Heap.represents st v1 T1 -> Heap.represents st v2 T2 ->
  Heap.changed st v1 v2 = Some (changed T1 T2).
Proof.
  intros H1 H2. unfold Heap.changed, changed.
  destruct (heap_typeof_represents st v1 v2 T1 T2 H1 H2) as [-> ->].
  rewrite (heap_member_type st v1 T1 H1), (heap_member_type st v2 T2 H2).
  destruct (negb (bool_decide (typeof T1 = typeof T2))) eqn:Hty;
    [reflexivity|]. cbn [orb].
  destruct T1 as [s1|ty1 ps1 cs1]; cbn in H1.
  - subst v1. destruct T2 as [s2|ty2 ps2 cs2]; [|discriminate].
    cbn in H2. subst v2. cbn [node_value typeof].
    rewrite bool_decide_eq_true_2 by reflexivity. cbn [andb].
    destruct (strict_neq (VStr s1) (VStr s2)); reflexivity.
  - cbn [typeof]. rewrite bool_decide_eq_false_2 by discriminate. reflexivity.
Qed.

Lemma heap_height_child (ty : string) (ps : object) (cs : list vnode) (c : vnode) :
  c ∈ cs -> Heap.height c < Heap.height (VElem ty ps cs).
Proof.
  cbn [Heap.height]. induction cs as [|c' cs IH]; intros Hin.
  - now apply elem_of_nil in Hin.
  - apply elem_of_cons in Hin as [->|Hin]; cbn [foldr]; [lia|].
    specialize (IH Hin). lia.
Qed.

Lemma heap_createElement_represents (fuel : nat) :
  forall (st : Heap.store) (v : value) (T : vnode),
    Heap.represents st v T -> Heap.height T < fuel ->
    Heap.createElement fuel st v = Some (createElement_node T).
Proof.
  induction fuel as [|fuel IH]; intros st v T HT Hh; [lia|].
  destruct T as [s|ty ps cs]; cbn [Heap.represents] in HT.
  - now subst v.
  - destruct HT as (l & lp & lc & fs & vs & -> & Hl & Hty & Hps & Hcs & Hlp & Hlc & Hall).
    cbn [Heap.createElement Heap.member]. rewrite Hl, Hty, Hps, Hcs.
    cbn [Heap.elems_of]. rewrite Hlc.
    assert (Hmade : mapM (Heap.createElement fuel st) vs
                    = Some (map createElement_node cs)).
    { assert (Hcs' : forall c, c ∈ cs -> Heap.height c < fuel).
      { intros c Hc. pose proof (heap_height_child ty ps cs c Hc). lia. }
      clear Hh Hlc Hcs. revert vs Hall Hcs'.
      induction cs as [|c cs IHcs]; intros [|v' vs]; cbn; try tauto.
      intros [Hc Hall] Hcs'.
      rewrite (IH st v' c Hc) by (apply Hcs'; constructor). cbn.
      rewrite (IHcs vs Hall) by (intros c' Hc'; apply Hcs'; now constructor).
      reflexivity. }
    rewrite Hmade. cbn [mbind option_bind].
    unfold Heap.setProps, Heap.addEventListeners, Heap.own_fields.
    rewrite Hlp. reflexivity.
Qed.

Lemma heap_refines_hlift (st : Heap.store) (a : action) :
  Heap.refines st (Heap.hlift a) a.
Proof. intros st1 t _. exists st1. split; reflexivity. Qed.

Lemma heap_refines_hseq (st : Heap.store) (a b : Heap.hact) (a' b' : action) :
  Heap.refines st a a' -> Heap.refines st b b' ->
  Heap.refines st (Heap.hseq a b) (a' ;;; b').
Proof.
  intros Ha Hb st1 t Hsub. unfold Heap.hseq, andThen.
  destruct (Ha st1 t Hsub) as (st2 & -> & Hsub2).
  destruct (res (a' t)).
  - destruct (Hb st2 (final (a' t))) as (st3 & -> & Hsub3);
      [now transitivity st1|].
    exists st3. split; [reflexivity|now transitivity st2].
  - exists st2. split; [reflexivity|exact Hsub2].
Qed.

Lemma heap_refines_hforEach {A : Type} (st : Heap.store) (xs : list A)
    (hf : A -> Heap.hact) (f : A -> action) :
  (forall x, x ∈ xs -> Heap.refines st (hf x) (f x)) ->
  Heap.refines st (Heap.hforEach xs hf) (forEach xs f).
Proof.
  induction xs as [|x xs IH]; intros Hf; cbn [Heap.hforEach forEach].
  - apply heap_refines_hlift.
  - apply heap_refines_hseq.
    + apply Hf. constructor.
    + apply IH. intros y Hy. apply Hf. now constructor.
Qed.

Lemma heap_refines_in_child (st : Heap.store) (index : nat) (a : Heap.hact)
    (a' : action) :
  Heap.refines st a a' ->
  Heap.refines st (Heap.h_in_child index a) (in_child index a').
Proof.
  intros Ha st1 t Hsub. unfold Heap.h_in_child, in_child.
  destruct t as [p|]; [|exists st1; split; reflexivity].
  destruct (Ha st1 (childNodes_of p !! index) Hsub) as (st2 & -> & Hsub2).
  exists st2. split; [reflexivity|exact Hsub2].
Qed.

Lemma heap_updateProps_refines (st : Heap.store) (lp lp' : nat)
    (ps ps' : object) :
  st !! lp = Some (Heap.HObject ps) ->
  st !! lp' = Some (Heap.HObject ps') ->
  Heap.refines st (Heap.updateProps (VObj lp) (VObj lp'))
               (updateProps ps (Some ps')).
Proof.
  intros Hlp Hlp' st1 t Hsub.
  apply (lookup_weaken _ _ _ _ Hlp) in Hsub as Hlp1.
  apply (lookup_weaken _ _ _ _ Hlp') in Hsub as Hlp1'.
  unfold Heap.updateProps.
  destruct (heap_alloc_fresh st1 (Heap.HObject [])) as (l & -> & Hl).
  assert (Hne : lp <> l) by (intros ->; congruence).
  assert (Hne' : lp' <> l) by (intros ->; congruence).
  unfold Heap.assign. rewrite lookup_insert_eq. cbn [map].
  unfold Heap.own_fields at 2 3.
  rewrite !lookup_insert_ne by auto. rewrite Hlp1, Hlp1'. cbn [default].
  rewrite insert_insert_eq.
  unfold Heap.own_fields. rewrite lookup_insert_eq.
  eexists. split.
  - f_equal. f_equal. unfold updateProps. cbn [default].
    apply forEach_ext. intros name t' _.
    unfold Heap.member. rewrite !lookup_insert_ne by auto.
    now rewrite Hlp1, Hlp1'.
  - apply map_subseteq_spec. intros l' o' Ho'.
    rewrite !lookup_insert_ne by (intros ->; congruence). exact Ho'.
Qed.

Lemma heap_represents_lookup (st : Heap.store) (cs : list vnode)
    (vs : list value) (i : nat) :
  Heap.all2 (fun c v => Heap.represents st v c) cs vs ->
  Heap.represents_opt st (default VUndefined (vs !! i)) (cs !! i).
Proof.
  intros Hall. destruct (heap_all2_lookup _ cs vs Hall) as [Hlen Hlk].
  destruct (cs !! i) as [c|] eqn:Hc.
  - destruct (lookup_lt_is_Some_2 vs i) as [v Hv].
    { rewrite <- Hlen. now apply lookup_lt_Some in Hc. }
    rewrite Hv. cbn. now apply (Hlk i c v).
  - apply lookup_ge_None in Hc. rewrite Hlen in Hc.
    apply lookup_ge_None in Hc. now rewrite Hc.
Qed.

(** On stored trees and with fuel above the height of the new tree, the
    call returns, does what [update] on trees does, and leaves the store's
    objects. *)
Lemma heap_update_refines (fuel : nat) :
  forall (st : Heap.store) (vn vo : value) (newNode oldNode : jsnode)
         (index : nat),
    Heap.represents_opt st vn newNode ->
    Heap.represents_opt st vo oldNode ->
    Heap.height_opt newNode < fuel ->
    Heap.refines st (Heap.update fuel vn vo index) (update newNode oldNode index).
Proof.
  induction fuel as [|fuel IH];
    intros st vn vo newNode oldNode index Hn Ho Hh st1 t Hsub; [lia|].
  apply (heap_represents_opt_weaken _ _ _ _ Hsub) in Hn, Ho.
  cbn [Heap.update]. rewrite update_unfold. unfold update_step.
  rewrite (heap_truthy_represents st1 vn newNode Hn),
          (heap_truthy_represents st1 vo oldNode Ho).
  assert (Hmake : Heap.createElement (S fuel) st1 vn = Some (createElement newNode)).
  { destruct newNode as [T|]; cbn in Hn.
    - now apply heap_createElement_represents.
    - now subst vn. }
  destruct (negb (node_truthy oldNode)) eqn:Hot.
  { rewrite Hmake. exists st1. split; reflexivity. }
  destruct (negb (node_truthy newNode)) eqn:Hnt.
  { exists st1. split; reflexivity. }
  destruct newNode as [new|]; [|discriminate].
  destruct oldNode as [old|]; [|discriminate].
  cbn in Hn, Ho.
  rewrite (heap_changed_represents st1 vn vo new old Hn Ho).
  destruct (changed new old) eqn:Hch.
  { rewrite Hmake. exists st1. split; reflexivity. }
  rewrite (heap_member_type st1 vn new Hn).
  destruct (truthy (node_type new)) eqn:Hty; [|exists st1; split; reflexivity].
  destruct new as [s|ty ps cs]; [discriminate|].
  destruct old as [s'|ty' ps' cs'].
  { unfold changed in Hch. cbn in Hch.
    rewrite bool_decide_eq_false_2 in Hch by discriminate. discriminate. }
  cbn [Heap.represents] in Hn, Ho.
  destruct Hn as (l & lp & lc & fs & vs & -> & Hl & Hfty & Hfps & Hfcs & Hlp & Hlc & Hall).
  destruct Ho as (l' & lp' & lc' & fs' & vs' & -> & Hl' & Hfty' & Hfps' & Hfcs' & Hlp' & Hlc' & Hall').
  unfold Heap.member. rewrite Hl, Hl', Hfps, Hfps', Hfcs, Hfcs'.
  apply (heap_refines_hseq st1); [| |reflexivity].
  - apply heap_refines_in_child. now apply heap_updateProps_refines.
  - intros st2 t2 Hsub2.
    unfold Heap.elems_of.
    rewrite (lookup_weaken _ _ _ _ Hlc Hsub2), (lookup_weaken _ _ _ _ Hlc' Hsub2).
    destruct (heap_all2_lookup _ cs vs Hall) as [<- _].
    destruct (heap_all2_lookup _ cs' vs' Hall') as [<- _].
    apply (heap_refines_hforEach st1); [|exact Hsub2].
    intros i _. apply heap_refines_in_child. apply IH.
    + now apply heap_represents_lookup.
    + now apply heap_represents_lookup.
    + destruct (cs !! i) as [c|] eqn:Hc; cbn [Heap.height_opt].
      * assert (Hin : c ∈ cs) by (apply list_elem_of_lookup; eauto).
        pose proof (heap_height_child ty ps cs c Hin).
        cbn [Heap.height_opt] in Hh. lia.
      * cbn in Hh. lia.
Qed.

(** C7.  With the new and the old tree stored as objects, a call of
    [update] returns and leaves every object of the store (every virtual
    node, props object and children array among them) with the fields it
    had: both trees are denoted by the same references as before; what it
    does to the live tree is what [update] on trees does. *)
Theorem update_leaves_vnodes (st : Heap.store) (vn vo : value)
    (newNode oldNode : jsnode) (index : nat) (parent : option live) :
  Heap.represents_opt st vn newNode ->
  Heap.represents_opt st vo oldNode ->
  exists st',
    Heap.update (S (Heap.height_opt newNode)) vn vo index st parent
    = Some (st', update newNode oldNode index parent)
    /\ (forall l o, st !! l = Some o -> st' !! l = Some o)
    /\ Heap.represents_opt st' vn newNode
    /\ Heap.represents_opt st' vo oldNode.
Proof.
  intros Hn Ho.
  destruct (heap_update_refines (S (Heap.height_opt newNode)) st vn vo
              newNode oldNode index Hn Ho (Nat.lt_succ_diag_r _) st parent)
    as (st' & Hrun & Hsub); [reflexivity|].
  exists st'. split; [exact Hrun|]. split; [|split].
  - intros l o Hl. now apply (lookup_weaken st st').
  - now apply (heap_represents_opt_weaken st st').
  - now apply (heap_represents_opt_weaken st st').
Qed.

Lemma update_leaves_vnodes_witness :
  let new := VElem "div" [("title", VStr "")] [VText "x"] in
  let old := VElem "div" [("title", VStr "a")] [VText "x"] in
  let parent :=
    Some (LElem "body" [] [] [LElem "div" [("title", VStr "a")] [] [LText "x"]]) in
  exists st',
    Heap.update 2 (VObj 2) (VObj 5) 0 Heap.sample_store parent
    = Some (st', update (Some new) (Some old) 0 parent)
    /\ (forall l o, Heap.sample_store !! l = Some o -> st' !! l = Some o)
    /\ Heap.represents_opt st' (VObj 2) (Some new)
    /\ Heap.represents_opt st' (VObj 5) (Some old).
Proof.
  cbv zeta.
  apply (update_leaves_vnodes Heap.sample_store (VObj 2) (VObj 5)
           (Some (VElem "div" [("title", VStr "")] [VText "x"]))
           (Some (VElem "div" [("title", VStr "a")] [VText "x"]))
           0).
  - exists 2, 0, 1,
      [("type", VStr "div"); ("props", VObj 0); ("children", VObj 1)],
      [VStr "x"].
    repeat split; reflexivity.
  - exists 5, 3, 4,
      [("type", VStr "div"); ("props", VObj 3); ("children", VObj 4)],
      [VStr "x"].
    repeat split; reflexivity.
Defined.

(** The run of the witness: the merged props object is a new object at 6. *)
Lemma heap_update_example :
  Heap.update 2 (VObj 2) (VObj 5) 0 Heap.sample_store
              (Some (LElem "body" [] []
                           [LElem "div" [("title", VStr "a")] [] [LText "x"]]))
  = Some (<[6 := Heap.HObject [("title", VStr "a")]]> Heap.sample_store,
          Outcome (Some (LElem "body" [] []
                               [LElem "div" [("title", VStr "a")] [] [LText "x"]]))
                  [EvCall_updateProp "title" (VStr "") (VStr "a")]
                  (Throw (ReferenceError "newVal"))).
Proof. vm_compute. reflexivity. Qed.

(** * Further properties of the engine *)

(** ** Change detection and the branches of the reconciler *)

Lemma strict_eq_sym (a b : value) : strict_eq a b = strict_eq b a.
Proof.
  unfold strict_eq. destruct a, b; try reflexivity;
    repeat case_bool_decide; congruence.
Qed.

(** X6.  [changed] does not depend on the order of its two arguments. *)
Theorem changed_symmetric (node1 node2 : vnode) :
  changed node1 node2 = changed node2 node1.
Proof.
  unfold changed, strict_neq.
  rewrite (strict_eq_sym (node_type node1)), (strict_eq_sym (node_value node1)).
  destruct node1, node2; cbn; repeat case_bool_decide; try congruence;
    reflexivity.
Qed.

(** X7.  When the old node is undefined or the empty string, [update]
    materializes the new node and appends it after the children the parent
    has, whatever the index is; the children already there stay. *)
Theorem update_appends_last (new : vnode) (oldNode : jsnode) (index : nat)
    (tg : string) (at_ : object) (ls : list (string * value)) (cs : list live) :
  node_truthy oldNode = false ->
  exists el lg,
    createElement (Some new) = Outcome (Some el) lg Normal
    /\ update (Some new) oldNode index (Some (LElem tg at_ ls cs))
       = Outcome (Some (LElem tg at_ ls (cs ++ [el])))
                 (lg ++ [EvAppendChild el]) Normal.
Proof.
  intros Hold.
  destruct (update_append new oldNode index tg at_ ls cs Hold) as (lg & H1 & H2).
  exists (createElement_result new), lg. auto.
Qed.

Lemma update_appends_last_witness :
  exists el lg,
    createElement (Some (VText "b")) = Outcome (Some el) lg Normal
    /\ update (Some (VText "b")) (Some (VText "")) 0
              (Some (LElem "p" [] [] [LText ""; LText "z"]))
       = Outcome (Some (LElem "p" [] [] ([LText ""; LText "z"] ++ [el])))
                 (lg ++ [EvAppendChild el]) Normal.
Proof.
  apply (update_appends_last (VText "b") (Some (VText "")) 0 "p" [] []
           [LText ""; LText "z"]).
  reflexivity.
Defined.

(** X8.  When both nodes are present and changed, [update] replaces the
    live child at the index by the materialized new node: nothing of the
    old live child is kept, and the other children stay where they are. *)
Theorem update_replaces_child (new old : vnode) (index : nat)
    (parent c : live) :
  node_truthy (Some new) = true ->
  node_truthy (Some old) = true ->
  changed new old = true ->
  childNodes_of parent !! index = Some c ->
  exists el lg,
    createElement (Some new) = Outcome (Some el) lg Normal
    /\ update (Some new) (Some old) index (Some parent)
       = Outcome (Some (with_childNodes parent
                          (<[index := el]> (childNodes_of parent))))
                 (lg ++ [EvReplaceChild el c]) Normal.
Proof.
  intros Hnew Hold Hch Hc.
  destruct (createElement_node_total new) as [lg0 Hmk].
  exists (createElement_result new), lg0. split; [exact Hmk|].
  rewrite update_unfold. unfold update_step.
  rewrite Hold, Hnew, Hch. cbn [negb].
  unfold on_object, withCreated. cbn [createElement]. rewrite Hmk.
  cbn. now rewrite Hc.
Qed.

Lemma update_replaces_child_witness :
  exists el lg,
    createElement (Some (h "span" (Some []) [VText "x"]))
    = Outcome (Some el) lg Normal
    /\ update (Some (h "span" (Some []) [VText "x"]))
              (Some (h "div" (Some [("id", VStr "d")]) [VText "x"])) 1
              (Some (LElem "body" [] []
                           [LText "a";
                            LElem "div" [("id", VStr "d")] [] [LText "x"];
                            LText "z"]))
       = Outcome (Some (LElem "body" [] [] [LText "a"; el; LText "z"]))
                 (lg ++ [EvReplaceChild
                           el (LElem "div" [("id", VStr "d")] [] [LText "x"])])
                 Normal.
Proof.
  apply (update_replaces_child
           (h "span" (Some []) [VText "x"])
           (h "div" (Some [("id", VStr "d")]) [VText "x"]) 1
           (LElem "body" [] []
                  [LText "a"; LElem "div" [("id", VStr "d")] [] [LText "x"];
                   LText "z"])
           (LElem "div" [("id", VStr "d")] [] [LText "x"]));
    reflexivity.
Defined.

(** X9.  When [update] is to remove or replace and the parent has no child
    at the index, the call raises a TypeError and the parent is as before. *)
Theorem update_no_child_at_index (newNode oldNode : jsnode) (index : nat)
    (parent : live) :
  removes_or_replaces newNode oldNode = true ->
  childNodes_of parent !! index = None ->
  final (update newNode oldNode index (Some parent)) = Some parent
  /\ res (update newNode oldNode index (Some parent)) = Throw TypeError.
Proof.
  unfold removes_or_replaces. intros H Hc.
  apply andb_true_iff in H as [Hold H].
  rewrite update_unfold. unfold update_step. rewrite Hold. cbn [negb].
  destruct (node_truthy newNode) eqn:Hnew; cbn [negb orb] in *.
  - destruct newNode as [new|]; [|discriminate].
    destruct oldNode as [old|]; [|discriminate].
    rewrite H. destruct (createElement_node_total new) as [lg Hlg].
    unfold on_object, withCreated, replaceChild_at. cbn [createElement].
    rewrite Hlg. cbn. now rewrite Hc.
  - unfold removeChild_at. now rewrite Hc.
Qed.

Lemma update_no_child_at_index_witness :
  final (update None (Some (VText "a")) 2
                (Some (LElem "p" [] [] [LText "a"; LText "b"])))
  = Some (LElem "p" [] [] [LText "a"; LText "b"])
  /\ res (update None (Some (VText "a")) 2
                 (Some (LElem "p" [] [] [LText "a"; LText "b"])))
     = Throw TypeError.
Proof.
  apply (update_no_child_at_index None (Some (VText "a")) 2
           (LElem "p" [] [] [LText "a"; LText "b"])); reflexivity.
Defined.

(** X10.  Whatever the nodes and the index, [update] changes nothing of
    the node it is given but its list of children: the tag, the attributes
    and the listeners of the parent stay. *)
Theorem update_changes_children_only (newNode oldNode : jsnode) (index : nat)
    (p : live) :
  exists p',
    final (update newNode oldNode index (Some p)) = Some p'
    /\ p' = with_childNodes p (childNodes_of p')
    /\ attributes_of p' = attributes_of p
    /\ listeners_of p' = listeners_of p.
Proof.
  destruct (update_own_children newNode oldNode index p) as [cs' Hcs].
  exists (with_childNodes p cs'). split; [exact Hcs|].
  destruct p; cbn; auto.
Qed.


(** ** Reconciliation reaches the materialized new tree *)

Lemma pairs_ok_spec (R : vnode -> vnode -> bool) (news olds : list vnode) :
  pairs_ok R news olds = true ->
  (forall i n o, news !! i = Some n -> olds !! i = Some o -> R n o = true)
  /\ length olds <= S (length news)
  /\ (forall o, olds !! length news = Some o -> node_truthy (Some o) = true).
Proof.
  revert olds. induction news as [|n news IH]; intros olds H.
  - destruct olds as [|o [|o' olds]]; cbn in H; [| |discriminate].
    + repeat split; [intros i n o Hn; discriminate|cbn; lia|].
      intros o Ho. discriminate.
    + repeat split; [intros i n o' Hn; discriminate|cbn; lia|].
      intros o' [= <-]. exact H.
  - destruct olds as [|o olds]; cbn in H.
    + repeat split; [intros i n' o Hn Ho; discriminate|cbn; lia|].
      intros o Ho. discriminate.
    + apply andb_true_iff in H as [Hno H].
      destruct (IH olds H) as (Hp & Hlen & Hlast).
      repeat split.
      * intros [|i] n' o'; cbn; [now intros [= <-] [= <-]|apply Hp].
      * cbn. lia.
      * exact Hlast.
Qed.

(** A run of steps on the child at [index], each seen through the parent,
    is the run of the steps on that child seen through the parent. *)
Lemma forEach_in_child_run {A : Type} (xs : list A) (f : A -> action)
    (index : nat) (tg : string) (at_ : object) (ls : list (string * value)) :
  forall (cs : list live) (c c' : live) (lg : list event),
    cs !! index = Some c ->
    (forall x X, x ∈ xs ->
       exists X' lg' r, f x (Some X) = Outcome (Some X') lg' r) ->
    forEach xs f (Some c) = Outcome (Some c') lg Normal ->
    forEach xs (fun x => in_child index (f x)) (Some (LElem tg at_ ls cs))
    = Outcome (Some (LElem tg at_ ls (<[index := c']> cs))) lg Normal.
Proof.
  induction xs as [|x xs IH]; intros cs c c' lg Hc Hf Hrun.
  - cbn in Hrun. injection Hrun as <- <-. cbn.
    now rewrite list_insert_id.
  - cbn [forEach] in *.
    destruct (Hf x c) as (X' & lg1 & r & Hx); [constructor|].
    unfold andThen in Hrun. rewrite Hx in Hrun. cbn in Hrun.
    destruct r as [|e]; [|discriminate].
    destruct (forEach xs f (Some X')) as [fin lg2 r2] eqn:Hrest.
    cbn in Hrun. injection Hrun as -> <- ->.
    unfold andThen.
    rewrite (in_child_run index (f x) (LElem tg at_ ls cs) c X' lg1 Normal Hc Hx).
    cbn [res final log with_childNodes childNodes_of].
    rewrite (IH (<[index := X']> cs) X' c' lg2).
    + cbn. now rewrite list_insert_insert_eq.
    + apply list_lookup_insert_eq. now apply lookup_lt_Some in Hc.
    + intros y X Hy. apply Hf. now constructor.
    + exact Hrest.
Qed.

(** The child loop, from position [i] on: the children before [i] are
    the materialized new ones, those from [i] on still the old ones. *)
Lemma children_loop (ty : string) (news olds : list vnode) :
  (forall i n o p',
      news !! i = Some n -> olds !! i = Some o ->
      childNodes_of p' !! i = Some (createElement_result o) ->
      exists lg,
        update (Some n) (Some o) i (Some p')
        = Outcome (Some (with_childNodes p'
                           (<[i := createElement_result n]> (childNodes_of p'))))
                  lg Normal) ->
  length olds <= S (length news) ->
  (forall o, olds !! length news = Some o -> node_truthy (Some o) = true) ->
  forall k i,
    i + k = max (length news) (length olds) ->
    exists lg,
      forEach (seq i k) (fun j => update (news !! j) (olds !! j) j)
              (Some (LElem ty [] []
                           ((createElement_result <$> take i news)
                              ++ (createElement_result <$> drop i olds))))
      = Outcome (Some (LElem ty [] [] (createElement_result <$> news))) lg Normal.
Proof.
  intros Hstep Hlen Hlast. induction k as [|k IH]; intros i Hik.
  - exists []. cbn.
    rewrite take_ge by lia. rewrite drop_ge by lia.
    now rewrite app_nil_r.
  - cbn [seq forEach].
    assert (Hnext : exists lg1,
               update (news !! i) (olds !! i) i
                      (Some (LElem ty [] []
                                   ((createElement_result <$> take i news)
                                      ++ (createElement_result <$> drop i olds))))
               = Outcome
                   (Some (LElem ty [] []
                                ((createElement_result <$> take (S i) news)
                                   ++ (createElement_result <$> drop (S i) olds))))
                   lg1 Normal).
    { destruct (decide (i < length news)) as [Hin|Hin].
      - destruct (lookup_lt_is_Some_2 news i Hin) as [n Hn].
        rewrite Hn, (take_S_r news i n Hn), fmap_app.
        assert (Hlt : length (createElement_result <$> take i news) = i)
          by (rewrite length_fmap, length_take; lia).
        destruct (olds !! i) as [o|] eqn:Ho.
        + rewrite (drop_S olds o i Ho), fmap_cons.
          destruct (Hstep i n o
                      (LElem ty [] []
                             ((createElement_result <$> take i news)
                                ++ createElement_result o
                                     :: (createElement_result <$> drop (S i) olds)))
                      Hn Ho) as [lg1 Hlg1].
          { cbn [childNodes_of]. rewrite lookup_app_r by lia.
            rewrite Hlt, Nat.sub_diag. reflexivity. }
          exists lg1. rewrite Hlg1. cbn [with_childNodes childNodes_of].
          rewrite insert_app_r_alt by lia. rewrite Hlt, Nat.sub_diag. cbn.
          now rewrite <- app_assoc.
        + apply lookup_ge_None in Ho.
          rewrite !drop_ge by lia. cbn [fmap list_fmap]. rewrite !app_nil_r.
          destruct (update_append n None i ty [] []
                      (createElement_result <$> take i news)) as (lg1 & _ & Hlg1);
            [reflexivity|].
          eexists. exact Hlg1.
      - assert (Hi : i = length news) by lia.
        assert (Hol : length olds = S (length news)) by lia.
        destruct (lookup_lt_is_Some_2 olds i) as [o Ho]; [lia|].
        rewrite (lookup_ge_None_2 news i) by lia.
        rewrite Ho, (drop_S olds o i Ho).
        rewrite (drop_ge olds (S i)) by lia.
        rewrite !take_ge by lia. cbn [fmap list_fmap]. rewrite app_nil_r.
        rewrite update_absent_is_removal by (apply Hlast; now rewrite <- Hi).
        eexists. unfold removeChild_at. cbn [childNodes_of].
        assert (Hlt : length (createElement_result <$> news) = i)
          by (rewrite length_fmap; lia).
        rewrite lookup_app_r by lia. rewrite Hlt, Nat.sub_diag. cbn.
        rewrite <- Hlt at 1. now rewrite delete_middle, app_nil_r. }
    destruct Hnext as [lg1 Hlg1].
    destruct (IH (S i)) as [lg2 Hlg2]; [lia|].
    eexists. erewrite andThen_normal by exact Hlg1.
    rewrite Hlg2. reflexivity.
Qed.

Lemma unchanged_text (s : string) (old : vnode) :
  changed (VText s) old = false -> old = VText s.
Proof.
  destruct old as [s'|ty ps cs]; unfold changed, strict_neq, strict_eq; cbn;
    repeat case_bool_decide; cbn; intros Hch; try discriminate; congruence.
Qed.

Lemma unchanged_elem (ty : string) (ps : object) (cs : list vnode) (old : vnode) :
  changed (VElem ty ps cs) old = false ->
  exists ps' cs', old = VElem ty ps' cs'.
Proof.
  destruct old as [s'|ty' ps' cs']; unfold changed, strict_neq, strict_eq; cbn;
    repeat case_bool_decide; cbn; intros Hch; try discriminate;
    exists ps', cs'; congruence.
Qed.

Lemma reconcile_run (new : vnode) :
  forall (old : vnode) (index : nat) (parent : live),
    reconcilable new old = true ->
    childNodes_of parent !! index = Some (createElement_result old) ->
    exists lg,
      update (Some new) (Some old) index (Some parent)
      = Outcome (Some (with_childNodes parent
                         (<[index := createElement_result new]>
                            (childNodes_of parent))))
                lg Normal.
Proof.
  induction new as [s|ty nps news IH] using vnode_ind;
    intros old index parent Hrec Hc.
  - cbn [reconcilable] in Hrec.
    apply andb_true_iff in Hrec as [Hrec _].
    apply andb_true_iff in Hrec as [Hnew Hold].
    destruct (changed (VText s) old) eqn:Hch.
    + destruct (update_replace (VText s) old index parent _ Hold Hnew Hch Hc)
        as [lg Hlg].
      eexists. exact Hlg.
    + apply unchanged_text in Hch as Heq. subst old.
      exists []. rewrite update_unfold. unfold update_step.
      rewrite Hnew, Hch. cbn.
      cbn in Hc. now rewrite list_insert_id, with_childNodes_id.
  - cbn [reconcilable] in Hrec.
    apply andb_true_iff in Hrec as [Hrec Hcase].
    apply andb_true_iff in Hrec as [Hnew Hold].
    destruct (changed (VElem ty nps news) old) eqn:Hch.
    + destruct (update_replace (VElem ty nps news) old index parent _
                  Hold Hnew Hch Hc) as [lg Hlg].
      eexists. exact Hlg.
    + destruct (unchanged_elem ty nps news old Hch) as (ops & olds & ->).
      cbn [orb] in Hcase.
      apply andb_true_iff in Hcase as [Hcase Hpairs].
      apply andb_true_iff in Hcase as [Hcase Hops].
      apply andb_true_iff in Hcase as [Hty Hnps].
      apply bool_decide_eq_true in Hnps, Hops. subst nps ops.
      destruct (pairs_ok_spec _ news olds Hpairs) as (Hp & Hlen & Hlast).
      destruct parent as [d|tg at_ ls cs]; [discriminate|].
      cbn [childNodes_of createElement_result set_attrs add_listeners
             Object_keys fmap list_fmap fold_left with_childNodes] in *.
      change (map createElement_result olds)
        with (createElement_result <$> olds) in Hc.
      change (map createElement_result news)
        with (createElement_result <$> news).
      destruct (children_loop ty news olds) with
        (k := max (length news) (length olds)) (i := 0) as [lg Hlg];
        [|exact Hlen|exact Hlast|reflexivity|].
      { intros i n o p' Hn Ho Hp'. rewrite Forall_forall in IH.
        apply IH; [|now apply (Hp i)|exact Hp'].
        apply list_elem_of_lookup. eauto. }
      rewrite take_0, drop_0 in Hlg. cbn [fmap list_fmap app] in Hlg.
      exists lg. rewrite update_unfold. unfold update_step.
      cbn [node_truthy negb]. rewrite Hch. cbn [node_type]. rewrite Hty.
      erewrite andThen_normal.
      2:{ eapply in_child_run; [exact Hc|reflexivity]. }
      cbn [final log res app with_childNodes childNodes_of].
      rewrite list_insert_id by exact Hc.
      rewrite (forEach_in_child_run
                 (seq 0 (max (length news) (length olds)))
                 (fun j => update (news !! j) (olds !! j) j)
                 index tg at_ ls cs
                 (LElem ty [] [] (createElement_result <$> olds))
                 (LElem ty [] [] (createElement_result <$> news))
                 lg Hc); [reflexivity| |exact Hlg].
      intros i X _.
      destruct (update_own_children (news !! i) (olds !! i) i X) as [cs' Hcs'].
      destruct (update (news !! i) (olds !! i) i (Some X)) as [fin lg' r].
      cbn in Hcs'. subst fin. eauto.
Qed.

(** X12.  For a pair of trees as [reconcilable] describes, with the live
    child at the index being the materialized old tree, [update] completes
    normally and leaves at that index the materialized new tree; the other
    children of the parent stay. *)
Theorem reconcile_reaches_new_tree (new old : vnode) (index : nat)
    (parent c : live) :
  reconcilable new old = true ->
  final (createElement (Some old)) = Some c ->
  childNodes_of parent !! index = Some c ->
  exists c',
    final (createElement (Some new)) = Some c'
    /\ final (update (Some new) (Some old) index (Some parent))
       = Some (with_childNodes parent (<[index := c']> (childNodes_of parent)))
    /\ res (update (Some new) (Some old) index (Some parent)) = Normal.
Proof.
  intros Hrec Hold Hc.
  destruct (createElement_node_total old) as [lgo Ho].
  destruct (createElement_node_total new) as [lgn Hn].
  cbn [createElement] in *. rewrite Ho in Hold. cbn in Hold.
  injection Hold as <-.
  destruct (reconcile_run new old index parent Hrec Hc) as [lg Hlg].
  exists (createElement_result new). rewrite Hn, Hlg. auto.
Qed.

Lemma reconcile_reaches_new_tree_witness :
  let old := h "ul" None [h "li" None [VText "A"]; VText "B"] in
  let new := h "ul" None [VText "X"; h "li" None [VText "A"]; VText "B"] in
  exists c',
    final (createElement (Some new)) = Some c'
    /\ final (update (Some new) (Some old) 0
                     (Some (LElem "body" [] []
                                  [LElem "ul" [] []
                                         [LElem "li" [] [] [LText "A"]; LText "B"];
                                   LText "tail"])))
       = Some (LElem "body" [] [] (<[0 := c']>
                 [LElem "ul" [] [] [LElem "li" [] [] [LText "A"]; LText "B"];
                  LText "tail"]))
    /\ res (update (Some new) (Some old) 0
                   (Some (LElem "body" [] []
                                [LElem "ul" [] []
                                       [LElem "li" [] [] [LText "A"]; LText "B"];
                                 LText "tail"])))
       = Normal.
Proof.
  cbv zeta.
  apply (reconcile_reaches_new_tree
           (h "ul" None [VText "X"; h "li" None [VText "A"]; VText "B"])
           (h "ul" None [h "li" None [VText "A"]; VText "B"]) 0
           (LElem "body" [] []
                  [LElem "ul" [] [] [LElem "li" [] [] [LText "A"]; LText "B"];
                   LText "tail"])
           (LElem "ul" [] [] [LElem "li" [] [] [LText "A"]; LText "B"]));
    reflexivity.
Defined.

(** ** Trailing old children *)

Lemma forEach_in_child_run_any {A : Type} (xs : list A) (f : A -> action)
    (index : nat) (tg : string) (at_ : object) (ls : list (string * value)) :
  forall (cs : list live) (c c' : live) (lg : list event) (r : completion),
    cs !! index = Some c ->
    (forall x X, x ∈ xs ->
       exists X' lg' r', f x (Some X) = Outcome (Some X') lg' r') ->
    forEach xs f (Some c) = Outcome (Some c') lg r ->
    forEach xs (fun x => in_child index (f x)) (Some (LElem tg at_ ls cs))
    = Outcome (Some (LElem tg at_ ls (<[index := c']> cs))) lg r.
Proof.
  induction xs as [|x xs IH]; intros cs c c' lg r Hc Hf Hrun.
  - cbn in Hrun. injection Hrun as <- <- <-. cbn.
    now rewrite list_insert_id.
  - cbn [forEach] in *.
    destruct (Hf x c) as (X' & lg1 & r1 & Hx); [constructor|].
    unfold andThen in Hrun. rewrite Hx in Hrun. cbn in Hrun.
    unfold andThen.
    rewrite (in_child_run index (f x) (LElem tg at_ ls cs) c X' lg1 r1 Hc Hx).
    cbn [res final log with_childNodes childNodes_of].
    destruct r1 as [|e].
    + destruct (forEach xs f (Some X')) as [fin lg2 r2] eqn:Hrest.
      cbn in Hrun. injection Hrun as -> <- ->.
      rewrite (IH (<[index := X']> cs) X' c' lg2 r).
      * cbn. now rewrite list_insert_insert_eq.
      * apply list_lookup_insert_eq. now apply lookup_lt_Some in Hc.
      * intros y X Hy. apply Hf. now constructor.
      * exact Hrest.
    + now injection Hrun as <- <- <-.
Qed.

(** The positions both child lists have, up to [i + k]: the live children
    before are the materialized new ones, those after still the old ones. *)
Lemma prefix_loop (tg : string) (at_ : object) (ls : list (string * value))
    (news olds : list vnode) :
  (forall i n o, news !! i = Some n -> olds !! i = Some o ->
                 reconcilable n o = true) ->
  forall k i,
    i + k <= length news -> i + k <= length olds ->
    exists lg,
      forEach (seq i k) (fun j => update (news !! j) (olds !! j) j)
              (Some (LElem tg at_ ls
                           ((createElement_result <$> take i news)
                              ++ (createElement_result <$> drop i olds))))
      = Outcome (Some (LElem tg at_ ls
                             ((createElement_result <$> take (i + k) news)
                                ++ (createElement_result <$> drop (i + k) olds))))
                lg Normal.
Proof.
  intros Hrec. induction k as [|k IH]; intros i Hn Ho.
  - exists []. now rewrite Nat.add_0_r.
  - cbn [seq forEach].
    destruct (lookup_lt_is_Some_2 news i) as [n Hni]; [lia|].
    destruct (lookup_lt_is_Some_2 olds i) as [o Hoi]; [lia|].
    assert (Hlt : length (createElement_result <$> take i news) = i)
      by (rewrite length_fmap, length_take; lia).
    destruct (reconcile_run n o i
                (LElem tg at_ ls
                       ((createElement_result <$> take i news)
                          ++ (createElement_result <$> drop i olds)))
                (Hrec i n o Hni Hoi)) as [lg1 Hlg1].
    { cbn [childNodes_of]. rewrite lookup_app_r by lia.
      rewrite Hlt, Nat.sub_diag, (drop_S olds o i Hoi). reflexivity. }
    destruct (IH (S i)) as [lg2 Hlg2]; [lia|lia|].
    exists (lg1 ++ lg2). rewrite Hni, Hoi.
    erewrite andThen_normal by exact Hlg1.
    cbn [with_childNodes childNodes_of].
    rewrite (drop_S olds o i Hoi), fmap_cons.
    rewrite insert_app_r_alt by lia. rewrite Hlt, Nat.sub_diag. cbn [insert list_insert].
    rewrite (take_S_r news i n Hni), fmap_app in Hlg2. cbn [fmap list_fmap] in Hlg2.
    rewrite <- app_assoc in Hlg2. cbn [app] in Hlg2.
    rewrite Hlg2. now rewrite Nat.add_succ_r.
Qed.

(** Removals at the raw loop index: with the index at the first of the
    children [T], every other child of [T] goes, and the loop ends in the
    [TypeError] of [removeChild(undefined)] once it has run off the end. *)
Lemma removal_loop (tg : string) (at_ : object) (ls : list (string * value)) :
  forall (k : nat) (T pre : list live),
    length T + 2 <= 2 * k ->
    forEach (seq (length pre) k) removeChild_at
            (Some (LElem tg at_ ls (pre ++ T)))
    = Outcome (Some (LElem tg at_ ls (pre ++ odd_indexed T)))
              (EvRemoveChild <$> even_indexed T) (Throw TypeError).
Proof.
  induction k as [|k IH]; intros T pre Hk; [lia|].
  cbn [seq forEach]. unfold andThen.
  destruct T as [|t0 [|t1 T]].
  - assert (Hs : removeChild_at (length pre) (Some (LElem tg at_ ls (pre ++ [])))
                 = Outcome (Some (LElem tg at_ ls (pre ++ []))) [] (Throw TypeError)).
    { unfold removeChild_at. cbn [childNodes_of].
      rewrite lookup_ge_None_2 by (rewrite length_app; cbn; lia).
      reflexivity. }
    rewrite Hs. reflexivity.
  - assert (Hs : removeChild_at (length pre) (Some (LElem tg at_ ls (pre ++ [t0])))
                 = Outcome (Some (LElem tg at_ ls pre)) [EvRemoveChild t0] Normal).
    { unfold removeChild_at. cbn [childNodes_of].
      rewrite lookup_app_r, Nat.sub_diag by lia. cbn [lookup list_lookup].
      cbn [with_childNodes]. now rewrite delete_middle, app_nil_r. }
    rewrite Hs. cbn [res final log].
    destruct k as [|k]; [cbn in Hk; lia|].
    cbn [seq forEach]. unfold andThen.
    assert (Hs' : removeChild_at (S (length pre)) (Some (LElem tg at_ ls pre))
                  = Outcome (Some (LElem tg at_ ls pre)) [] (Throw TypeError)).
    { unfold removeChild_at. cbn [childNodes_of].
      rewrite lookup_ge_None_2 by lia. reflexivity. }
    rewrite Hs'. cbn. now rewrite app_nil_r.
  - assert (Hs : removeChild_at (length pre)
                   (Some (LElem tg at_ ls (pre ++ t0 :: t1 :: T)))
                 = Outcome (Some (LElem tg at_ ls ((pre ++ [t1]) ++ T)))
                           [EvRemoveChild t0] Normal).
    { unfold removeChild_at. cbn [childNodes_of].
      rewrite lookup_app_r, Nat.sub_diag by lia. cbn [lookup list_lookup].
      cbn [with_childNodes]. rewrite delete_middle, <- app_assoc. reflexivity. }
    rewrite Hs. cbn [res final log].
    specialize (IH T (pre ++ [t1])).
    rewrite length_app, Nat.add_1_r in IH.
    rewrite IH by (cbn in Hk; lia).
    cbn. now rewrite <- app_assoc.
Qed.

(** The child loop of an element whose old children outnumber the new ones
    by two or more, run on the live children rendered from the old ones. *)
Lemma trailing_loop (tg : string) (at_ : object) (ls : list (string * value))
    (news olds : list vnode) :
  (forall i n o, news !! i = Some n -> olds !! i = Some o ->
                 reconcilable n o = true) ->
  (forall j o, length news <= j -> olds !! j = Some o ->
               node_truthy (Some o) = true) ->
  length news + 2 <= length olds ->
  exists lg,
    forEach (seq 0 (max (length news) (length olds)))
            (fun j => update (news !! j) (olds !! j) j)
            (Some (LElem tg at_ ls (createElement_result <$> olds)))
    = Outcome
        (Some (LElem tg at_ ls
                     ((createElement_result <$> news)
                        ++ odd_indexed
                             (createElement_result <$> drop (length news) olds))))
        (lg ++ (EvRemoveChild
                  <$> even_indexed
                        (createElement_result <$> drop (length news) olds)))
        (Throw TypeError).
Proof.
  intros Hrec Htr Hlen.
  destruct (prefix_loop tg at_ ls news olds Hrec (length news) 0) as [lg Hlg];
    [lia|lia|].
  rewrite take_0, drop_0 in Hlg. cbn [fmap list_fmap app plus] in Hlg.
  rewrite firstn_all in Hlg.
  exists lg.
  replace (length news `max` length olds)
    with (length news + (length olds - length news)) by lia.
  rewrite seq_app, forEach_app. cbn [plus].
  erewrite andThen_normal by exact Hlg.
  rewrite (forEach_ext _ _ removeChild_at).
  2:{ intros j t Hj. apply elem_of_seq in Hj as [Hj Hj'].
      rewrite (lookup_ge_None_2 news j) by lia.
      destruct (lookup_lt_is_Some_2 olds j) as [o Ho]; [lia|].
      rewrite Ho. apply update_absent_is_removal. now apply (Htr j). }
  pose proof (removal_loop tg at_ ls (length olds - length news)
                (createElement_result <$> drop (length news) olds)
                (createElement_result <$> news)) as Hrem.
  rewrite !length_fmap, length_drop in Hrem.
  rewrite Hrem by lia. reflexivity.
Qed.

(** C10.  In the child loop a removal is [removeChild] of the live child at
    the loop index itself, whatever was removed before.  So for an element
    without props whose old child list is longer than the new one by two or
    more, with the live children rendered from the old ones: once the
    positions both lists have are reconciled, only every other trailing
    child is removed (the first, the third, ...), the ones in between stay
    as children after the new ones, and the call ends in the [TypeError] of
    a removal at an index that holds no child any more. *)
Theorem trailing_removal_exact (ty : string) (news olds : list vnode)
    (index : nat) (parent : live)
    (tg : string) (at_ : object) (ls : list (string * value)) :
  ty <> "" ->
  forallb (fun no => reconcilable no.1 no.2) (zip news olds) = true ->
  forallb (fun o => node_truthy (Some o)) (drop (length news) olds) = true ->
  length news + 2 <= length olds ->
  childNodes_of parent !! index
  = Some (LElem tg at_ ls (map createElement_result olds)) ->
  let trailing := map createElement_result (drop (length news) olds) in
  (forall oldNode i t,
      node_truthy oldNode = true -> update None oldNode i t = removeChild_at i t)
  /\ odd_indexed trailing <> []
  /\ exists lg,
       update (Some (VElem ty [] news)) (Some (VElem ty [] olds)) index
              (Some parent)
       = Outcome
           (Some (with_childNodes parent
                    (<[index := LElem tg at_ ls
                                  (map createElement_result news
                                     ++ odd_indexed trailing)]>
                       (childNodes_of parent))))
           (lg ++ map EvRemoveChild (even_indexed trailing))
           (Throw TypeError).
Proof.
  intros Hty Hrec Htr Hlen Hc trailing.
  split; [intros; now apply update_absent_is_removal|].
  split.
  { subst trailing.
    destruct (drop (length news) olds) as [|t0 [|t1 T]] eqn:Hd; [| |discriminate];
      apply (f_equal length) in Hd; rewrite length_drop in Hd; cbn in Hd; lia. }
  assert (Hrec' : forall i n o, news !! i = Some n -> olds !! i = Some o ->
                                reconcilable n o = true).
  { intros i n o Hn Ho. rewrite forallb_forall in Hrec.
    apply (Hrec (n, o)). apply list_elem_of_In, list_elem_of_lookup.
    exists i. rewrite lookup_zip_with, Hn, Ho. reflexivity. }
  assert (Htr' : forall j o, length news <= j -> olds !! j = Some o ->
                             node_truthy (Some o) = true).
  { intros j o Hj Ho. rewrite forallb_forall in Htr.
    apply Htr. apply list_elem_of_In, list_elem_of_lookup.
    exists (j - length news). rewrite lookup_drop.
    now replace (length news + (j - length news)) with j by lia. }
  destruct (trailing_loop tg at_ ls news olds Hrec' Htr' Hlen) as [lg Hlg].
  exists lg. subst trailing.
  change (map createElement_result) with (fmap (M := list) createElement_result) in *.
  change (map EvRemoveChild) with (fmap (M := list) EvRemoveChild).
  destruct parent as [d|ptg pat pls cs]; [discriminate|].
  cbn [childNodes_of with_childNodes] in *.
  rewrite update_unfold. unfold update_step.
  cbn [node_truthy negb]. rewrite changed_same_type. cbn [node_type truthy].
  rewrite bool_decide_eq_false_2 by exact Hty. cbn [negb].
  erewrite andThen_normal.
  2:{ eapply in_child_run; [exact Hc|reflexivity]. }
  cbn [final log res app with_childNodes childNodes_of].
  rewrite list_insert_id by exact Hc.
  rewrite (forEach_in_child_run_any
             (seq 0 (max (length news) (length olds)))
             (fun j => update (news !! j) (olds !! j) j)
             index ptg pat pls cs
             (LElem tg at_ ls (createElement_result <$> olds))
             (LElem tg at_ ls
                    ((createElement_result <$> news)
                       ++ odd_indexed
                            (createElement_result <$> drop (length news) olds)))
             (lg ++ (EvRemoveChild
                       <$> even_indexed
                             (createElement_result <$> drop (length news) olds)))
             (Throw TypeError) Hc); [reflexivity| |exact Hlg].
  intros i X _.
  destruct (update_own_children (news !! i) (olds !! i) i X) as [cs' Hcs'].
  destruct (update (news !! i) (olds !! i) i (Some X)) as [fin lg' r].
  cbn in Hcs'. subst fin. eauto.
Qed.

Lemma trailing_removal_exact_witness :
  let A := VText "A" in
  let B := VText "B" in
  let C := VText "C" in
  let D := VText "D" in
  (forall oldNode i t,
      node_truthy oldNode = true -> update None oldNode i t = removeChild_at i t)
  /\ odd_indexed [LText "B"; LText "C"; LText "D"] <> []
  /\ exists lg,
       update (Some (VElem "ul" [] [A])) (Some (VElem "ul" [] [A; B; C; D])) 0
              (Some (LElem "body" [] []
                           [LElem "ul" [("id", VStr "l")] []
                                  [LText "A"; LText "B"; LText "C"; LText "D"]]))
       = Outcome
           (Some (LElem "body" [] []
                        [LElem "ul" [("id", VStr "l")] []
                               [LText "A"; LText "C"]]))
           (lg ++ [EvRemoveChild (LText "B"); EvRemoveChild (LText "D")])
           (Throw TypeError).
Proof.
  cbv zeta.
  apply (trailing_removal_exact "ul"
           [VText "A"] [VText "A"; VText "B"; VText "C"; VText "D"] 0
           (LElem "body" [] []
                  [LElem "ul" [("id", VStr "l")] []
                         [LText "A"; LText "B"; LText "C"; LText "D"]])
           "ul" [("id", VStr "l")] []).
  - discriminate.
  - reflexivity.
  - reflexivity.
  - cbn. lia.
  - reflexivity.
Defined.

(** ** The engine over an object store: construction *)

(** X14.  [h] builds its node from new objects only: the objects of the
    store stay, and the value returned denotes the element of the given
    type whose children are the trees the arguments denote and whose props
    are those of the object passed, or none when the props argument is
    falsy. *)
Theorem h_builds_element (st : Heap.store) (ty : string) (props : value)
    (ps : object) (vs : list value) (cs : list vnode) :
  Heap.all2 (fun c v => Heap.represents st v c) cs vs ->
  (truthy props = true /\ exists lp, props = VObj lp
                                 /\ st !! lp = Some (Heap.HObject ps))
  \/ (truthy props = false /\ ps = []) ->
  exists st' v,
    Heap.h (VStr ty) props vs st = (st', v)
    /\ st ⊆ st'
    /\ Heap.represents st' v (VElem ty ps cs).
Proof.
  intros Hall Hprops. unfold Heap.h.
  destruct (heap_alloc_fresh st (Heap.HArray vs)) as (l1 & -> & Hl1).
  set (st1 := <[l1 := Heap.HArray vs]> st).
  assert (H01 : st ⊆ st1) by now apply insert_subseteq.
  assert (Harr : st1 !! l1 = Some (Heap.HArray vs)) by apply lookup_insert_eq.
  assert (Hbuild : forall st2 lp,
             st1 ⊆ st2 -> st2 !! lp = Some (Heap.HObject ps) ->
             exists st' v,
               Heap.alloc st2 (Heap.HObject [("type", VStr ty); ("props", VObj lp);
                                             ("children", VObj l1)]) = (st', v)
               /\ st ⊆ st' /\ Heap.represents st' v (VElem ty ps cs)).
  { intros st2 lp H12 Hlp.
    destruct (heap_alloc_fresh st2
                (Heap.HObject [("type", VStr ty); ("props", VObj lp);
                               ("children", VObj l1)])) as (l3 & -> & Hl3).
    assert (H23 : st2 ⊆ <[l3 := Heap.HObject [("type", VStr ty); ("props", VObj lp);
                                              ("children", VObj l1)]]> st2)
      by now apply insert_subseteq.
    assert (H03 : st ⊆ <[l3 := Heap.HObject [("type", VStr ty); ("props", VObj lp);
                                             ("children", VObj l1)]]> st2)
      by (transitivity st1; [exact H01|now transitivity st2]).
    eexists _, _. split; [reflexivity|]. split; [exact H03|].
    cbn [Heap.represents].
    exists l3, lp, l1, [("type", VStr ty); ("props", VObj lp); ("children", VObj l1)], vs.
    repeat split.
    - apply lookup_insert_eq.
    - apply (lookup_weaken st2); [exact Hlp|exact H23].
    - apply (lookup_weaken st1); [exact Harr|now transitivity st2].
    - eapply heap_all2_impl; [|exact Hall].
      intros c v _. now apply heap_represents_weaken. }
  destruct Hprops as [[Ht (lp & -> & Hlp)]|[Hf ->]].
  - cbn [truthy]. apply Hbuild; [reflexivity|].
    now apply (lookup_weaken st st1).
  - rewrite Hf.
    destruct (heap_alloc_fresh st1 (Heap.HObject [])) as (l2 & -> & Hl2).
    apply Hbuild; [now apply insert_subseteq|apply lookup_insert_eq].
Qed.

Lemma h_builds_element_witness :
  exists st' v,
    Heap.h (VStr "li") VNull [VStr "a"; VObj 2] Heap.sample_store = (st', v)
    /\ Heap.sample_store ⊆ st'
    /\ Heap.represents st' v
         (VElem "li" [] [VText "a"; VElem "div" [("title", VStr "")] [VText "x"]]).
Proof.
  apply (h_builds_element Heap.sample_store "li" VNull [] [VStr "a"; VObj 2]
           [VText "a"; VElem "div" [("title", VStr "")] [VText "x"]]).
  - split; [reflexivity|]. split; [|exact I].
    exists 2, 0, 1,
      [("type", VStr "div"); ("props", VObj 0); ("children", VObj 1)],
      [VStr "x"].
    repeat split; reflexivity.
  - right. split; reflexivity.
Defined.

(** ** The remaining branch and the key walk *)

(** X15.  When the new node is absent (undefined or the empty string) and
    the old one present, [update] removes exactly the live child at the
    index: the children before it keep their positions, those after it move
    down by one, and the only command issued is that [removeChild]. *)
Theorem update_removes_child (newNode oldNode : jsnode) (index : nat)
    (parent c : live) :
  node_truthy oldNode = true ->
  node_truthy newNode = false ->
  childNodes_of parent !! index = Some c ->
  exists p',
    update newNode oldNode index (Some parent)
    = Outcome (Some p') [EvRemoveChild c] Normal
    /\ p' = with_childNodes parent (childNodes_of p')
    /\ length (childNodes_of parent) = S (length (childNodes_of p'))
    /\ (forall j, j < index -> childNodes_of p' !! j = childNodes_of parent !! j)
    /\ (forall j, index <= j ->
                  childNodes_of p' !! j = childNodes_of parent !! S j).
Proof.
  intros Hold Hnew Hc.
  rewrite (update_remove newNode oldNode index parent c Hold Hnew Hc).
  eexists. split; [reflexivity|].
  destruct parent as [d|tg at_ ls cs]; [discriminate|].
  cbn [childNodes_of with_childNodes] in *. repeat split.
  - rewrite length_delete by eauto.
    apply lookup_lt_Some in Hc. lia.
  - intros j Hj. now apply list_lookup_delete_lt.
  - intros j Hj. now apply list_lookup_delete_ge.
Qed.

Lemma update_removes_child_witness :
  exists p',
    update None (Some (VText "b")) 1
           (Some (LElem "p" [] [] [LText "a"; LText "b"; LText "c"]))
    = Outcome (Some p') [EvRemoveChild (LText "b")] Normal
    /\ p' = with_childNodes (LElem "p" [] [] [LText "a"; LText "b"; LText "c"])
                            (childNodes_of p')
    /\ length [LText "a"; LText "b"; LText "c"] = S (length (childNodes_of p'))
    /\ (forall j, j < 1 ->
                  childNodes_of p' !! j = [LText "a"; LText "b"; LText "c"] !! j)
    /\ (forall j, 1 <= j ->
                  childNodes_of p' !! j = [LText "a"; LText "b"; LText "c"] !! S j).
Proof.
  apply (update_removes_child None (Some (VText "b")) 1
           (LElem "p" [] [] [LText "a"; LText "b"; LText "c"]) (LText "b"));
    reflexivity.
Defined.






